(** * transitions.extensions.diagrams

    A shallow embedding of the diagram support of the [transitions]
    library: the hierarchy flattener [BaseGraph._get_elements], the edge
    labels of [BaseGraph._transition_label], the generator [_flatten], and
    the stateful glue of [TransitionGraphSupport._change_state],
    [GraphMachine._get_graph] and [GraphMachine.add_model].

    Python dictionaries with optional keys are records of [option] fields
    ([None] is "key absent"); exceptions are explicit results; objects that
    are mutated in place live in an explicit store. *)

From stdpp Require Import base option list strings gmap.

Set Default Proof Using "Type".

(** ** Exceptions and the logger *)

Inductive exn := KeyError | AttributeError.

Inductive result (A : Type) :=
  | Ok (x : A)
  | Raise (e : exn).
Arguments Ok {A} x.
Arguments Raise {A} e.

Inductive level := ERROR | WARNING | INFO | DEBUG.

(** One call of [_LOGGER.<level>(message)]. *)
Definition log_record : Type := level * string.

#[global] Instance exn_eq_dec : EqDecision exn.
Proof. solve_decision. Defined.

#[global] Instance level_eq_dec : EqDecision level.
Proof. solve_decision. Defined.

(** Code that mutates a store of type [W] and may raise: the store is
    kept as it is when the exception is raised. *)
Definition R (W A : Type) : Type := W -> W * result A.

#[global] Instance R_ret {W} : MRet (R W) := fun A x w => (w, Ok x).

#[global] Instance R_bind {W} : MBind (R W) := fun A B f m w =>
  match m w with
  | (w', Ok x) => f x w'
  | (w', Raise e) => (w', Raise e)
  end.

Definition raise {W A} (e : exn) : R W A := fun w => (w, Raise e).

(** [try: body / except <e>: handler] *)
Definition try_except {W A} (body : R W A) (e : exn) (handler : R W A)
  : R W A := fun w =>
  match body w with
  | (w', Raise e') => if decide (e' = e) then handler w' else (w', Raise e')
  | r => r
  end.

(** [for x in xs: body x] *)
Fixpoint for_each {W A} (xs : list A) (body : A -> R W unit) : R W unit :=
  match xs with
  | [] => mret ()
  | x :: rest => _ ← body x; for_each rest body
  end.

(** ** Strings *)

(** [sep.join(l)] of Python. *)
Fixpoint join (sep : string) (l : list string) : string :=
  match l with
  | [] => ""
  | x :: rest =>
      match rest with
      | [] => x
      | _ :: _ => x +:+ sep +:+ join sep rest
      end
  end.

(** ** The markup read by the flattener *)

Module Markup.

(** A transition dictionary of the markup. *)
Record transition := Transition {
  trigger : option string;
  source : option string;
  dest : option string;            (* absent for an internal transition *)
  conditions : option (list string);
  unless : option (list string);
  label : option string;
}.

(** The value stored under a state's ["initial"] key: a list (parallel
    initial states), a plain name, or an object exposing [name]. *)
Inductive initial_value :=
  | InitialList (names : list string)
  | InitialName (n : string)
  | InitialObject (name_attr : string).

(** A scope dictionary: the machine markup itself or one of its states.
    [children], [states] and [transitions] are only ever read through
    [.get(key, [])], so an absent key is the empty list. *)
#[local] Unset Elimination Schemes.
Inductive scope := Scope {
  name : option string;
  children : list scope;
  states : list scope;
  transitions : list transition;
  initial : option initial_value;
}.

#[local] Set Elimination Schemes.

(** Number of scope dictionaries in a markup tree. *)
Fixpoint scope_size (s : scope) : nat :=
  match s with
  | Scope _ ch st _ _ =>
      S (list_sum (map scope_size ch) + list_sum (map scope_size st))
  end.

End Markup.

Import Markup.

#[global] Instance transition_eq_dec : EqDecision transition.
Proof. solve_decision. Defined.

#[global] Instance initial_value_eq_dec : EqDecision initial_value.
Proof. solve_decision. Defined.

(** ** BaseGraph._get_elements *)

Module Flattener.

(** The three lists the loop mutates. A raised exception leaves them as
    they are at that point. *)
Record acc := Acc {
  acc_states : list scope;
  acc_transitions : list transition;
  acc_queue : list (list string * scope);
}.

(** Code running inside the [try] block. *)
Abbreviation M := (R acc).

(** [d[key]] for a key that may be absent. *)
Definition getitem {A} (field : option A) : M A := fun a =>
  match field with
  | Some v => (a, Ok v)
  | None => (a, Raise KeyError)
  end.

(** [transitions.append(tran)] *)
Definition append_transition (tran : transition) : M unit := fun a =>
  (Acc (acc_states a) (acc_transitions a ++ [tran]) (acc_queue a), Ok ()).

(** [states.append(sta)] *)
Definition append_state (sta : scope) : M unit := fun a =>
  (Acc (acc_states a ++ [sta]) (acc_transitions a) (acc_queue a), Ok ()).

(** [queue.append((prefix, scope))] *)
Definition enqueue (item : list string * scope) : M unit := fun a =>
  (Acc (acc_states a) (acc_transitions a) (acc_queue a ++ [item]), Ok ()).

(** [tran["source"] = v] and [tran["dest"] = v] on the shallow copy. *)
Definition set_source (v : string) (t : transition) : transition :=
  Transition (trigger t) (Some v) (dest t) (conditions t) (unless t) (label t).

Definition set_dest (v : string) (t : transition) : transition :=
  Transition (trigger t) (source t) (Some v) (conditions t) (unless t) (label t).

Section WithSeparator.

(** [self.machine.state_cls.separator] *)
Variable separator : string.

(** Lines 364-374: the transition that is appended for [transition]. *)
Definition scoped_transition (prefix : list string) (transition : transition)
  : M Markup.transition :=
  match prefix with
  | _ :: _ =>
      let tran := transition in
      src ← getitem (source tran);
      let tran := set_source (join separator (prefix ++ [src])) tran in
      match dest tran with
      | Some d => mret (set_dest (join separator (prefix ++ [d])) tran)
      | None => mret tran
      end
  | [] => mret transition
  end.

(** Lines 377-393: the body of the loop over the states of a scope. *)
Definition visit_state (prefix : list string) (state : scope) : M unit :=
  _ ← match prefix with
      | [] => append_state state
      | _ :: _ => mret ()
      end;
  _ ← match initial state with
      | None | Some (InitialList _) => mret ()
      | Some (InitialName ini) | Some (InitialObject ini) =>
          n ← getitem (name state);
          let src := join separator (prefix ++ [n]) +:+ "_anchor" in
          n' ← getitem (name state);
          let dst := join separator (prefix ++ [n'; ini]) in
          append_transition
            (Transition (Some "") (Some src) (Some dst) None None None)
      end;
  match children state with
  | _ :: _ =>
      n ← getitem (name state);
      enqueue (prefix ++ [n], state)
  | [] => mret ()
  end.

(** Lines 362-393: one iteration, after [queue.pop(0)]. *)
Definition visit_scope (prefix : list string) (scope : scope) : M unit :=
  _ ← for_each (transitions scope) (fun transition =>
        tran ← scoped_transition prefix transition;
        append_transition tran);
  for_each (children scope ++ states scope) (visit_state prefix).

(** [while queue: ...]; [None] when the fuel does not suffice. *)
Fixpoint while_queue (fuel : nat) (a : acc) : option (acc * result unit) :=
  match fuel with
  | 0 => None
  | S fuel' =>
      match acc_queue a with
      | [] => Some (a, Ok ())
      | (prefix, scope) :: rest =>
          match visit_scope prefix scope
                  (Acc (acc_states a) (acc_transitions a) rest) with
          | (a', Ok _) => while_queue fuel' a'
          | (a', Raise e) => Some (a', Raise e)
          end
      end
  end.

(** Enough iterations for any markup: every iteration removes one scope
    of the tree from the queue. *)
Definition fuel_for (markup : scope) : nat := S (scope_size markup).

(** Line 359: the lists before the loop. *)
Definition start (markup : scope) : acc := Acc [] [] [([], markup)].

(** The whole [try] block, from the markup the machine returns. *)
Definition try_block (markup : scope) : acc * result unit :=
  match while_queue (fuel_for markup) (start markup) with
  | Some r => r
  | None => (Acc [] [] [], Ok ())
  end.

(** [_get_elements]: what the call produces (the pair
    [(states, transitions)], or an exception the handler does not catch)
    and what it logged. The only handler is [except KeyError]. *)
Definition _get_elements (markup : scope)
  : result (list scope * list transition) * list log_record :=
  match try_block markup with
  | (a, Ok _) => (Ok (acc_states a, acc_transitions a), [])
  | (a, Raise KeyError) =>
      (Ok (acc_states a, acc_transitions a),
       [(ERROR, "Graph creation incomplete!")])
  | (a, Raise e) => (Raise e, [])
  end.

(** *** Vocabulary of the statements about the flattener *)

(** [descends p sc p' sc']: starting from scope [sc] queued with prefix
    [p], the walk queues [sc'] with prefix [p'] (line 392-393: a state is
    queued when its [children] list is not empty). *)
Inductive descends : list string -> scope -> list string -> scope -> Prop :=
  | descends_here p sc : descends p sc p sc
  | descends_child p sc st n p' sc' :
      In st (children sc ++ states sc) ->
      children st <> [] ->
      name st = Some n ->
      descends (p ++ [n]) st p' sc' ->
      descends p sc p' sc'.

(** The scopes the walk of [markup] reaches, with their prefix paths. *)
Definition reached (markup : scope) (p : list string) (sc : scope) : Prop :=
  descends [] markup p sc.

(** The entry for a declared transition [t] of a scope with prefix [p]. *)
Definition emitted_for (p : list string) (t t' : transition) : Prop :=
  match p with
  | [] => t' = t
  | _ :: _ =>
      exists src, source t = Some src /\
        t' = Transition (trigger t)
               (Some (join separator (p ++ [src])))
               ((fun d => join separator (p ++ [d])) <$> dest t)
               (conditions t) (unless t) (label t)
  end.

(** The anchor transition of the state named [n] under prefix [p] whose
    default child is [ini]. *)
Definition anchor (p : list string) (n ini : string) : transition :=
  Transition (Some "")
    (Some (join separator (p ++ [n]) +:+ "_anchor"))
    (Some (join separator (p ++ [n]) +:+ separator +:+ ini))
    None None None.

(** The entries the walk adds for a state [st] met under prefix [p]: one
    anchor when [st] has a single (non-list) initial, none otherwise. *)
Definition anchors_of (p : list string) (st : scope)
    (block : list transition) : Prop :=
  match initial st with
  | Some (InitialName ini) | Some (InitialObject ini) =>
      exists n, name st = Some n /\ block = [anchor p n ini]
  | Some (InitialList _) | None => block = []
  end.

(** The queue item a state contributes. *)
Definition enq_item (p : list string) (st : scope)
  : option (list string * scope) :=
  match children st with
  | [] => None
  | _ :: _ => (fun n => (p ++ [n], st)) <$> name st
  end.

Definition queue_weight (q : list (list string * scope)) : nat :=
  list_sum (map (fun item => scope_size item.2) q).

(** [single_initial st]: the state has an ["initial"] entry that is not a
    list. *)
Definition single_initial (st : scope) : bool :=
  match initial st with
  | Some (InitialName _) | Some (InitialObject _) => true
  | Some (InitialList _) | None => false
  end.

(** The entries of one scope, as a slice of the transitions list: its
    declared transitions, then the anchors of its states. *)
Definition scope_slice (p : list string) (sc : scope)
    (slice : list transition) : Prop :=
  exists emitted blocks,
    slice = emitted ++ concat blocks /\
    Forall2 (emitted_for p) (transitions sc) emitted /\
    Forall2 (anchors_of p) (children sc ++ states sc) blocks.

(** The queue items that visiting a popped item appends (lines 392-393):
    its states that have children, each under the extended prefix. A state
    that has children but no name makes the walk raise; it is left out
    here. *)
Definition kids (item : list string * scope) : list (list string * scope) :=
  omap (enq_item item.1) (children item.2 ++ states item.2).

(** The items in the order the loop pops them, starting from [queue]:
    the head first, its kids joining the end of the queue. *)
Fixpoint visit_order (fuel : nat) (queue : list (list string * scope))
  : list (list string * scope) :=
  match fuel with
  | 0 => []
  | S fuel' =>
      match queue with
      | [] => []
      | item :: rest => item :: visit_order fuel' (rest ++ kids item)
      end
  end.

(** The scopes of [markup] in the order the walk visits them, each with
    its prefix path; a scope that occurs twice in the tree is listed
    twice. *)
Definition walk_order (markup : scope) : list (list string * scope) :=
  visit_order (fuel_for markup) [([], markup)].

(** The number of entries that visiting an item adds to the transitions
    list: one per declared transition, and one anchor per state with a
    single initial. *)
Definition anchor_count (st : scope) : nat :=
  if single_initial st then 1 else 0.

Definition entries_of (item : list string * scope) : nat :=
  length (transitions item.2)
  + list_sum (map anchor_count (children item.2 ++ states item.2)).

(** [a'] has the transitions of [a] and possibly more after them. *)
Definition appends (a a' : acc) : Prop :=
  exists more, acc_transitions a' = acc_transitions a ++ more.

(** [m] only appends to the transitions and raises nothing but
    [KeyError]. *)
Definition tame {A} (m : M A) : Prop :=
  forall a a' r, m a = (a', r) ->
    appends a a' /\ (forall e, r = Raise e -> e = KeyError).

End WithSeparator.

(** *** Machines used as examples *)

Definition plain (n : string) : scope := Scope (Some n) [] [] [] None.

Definition tr (trg src dst : string) : transition :=
  Transition (Some trg) (Some src) (Some dst) None None None.

(** A nested machine in the style of the test-suite. *)
Definition state_C1 : scope :=
  Scope (Some "1") [plain "a"; plain "b"; plain "c"] []
    [tr "go" "a" "b"] (Some (InitialName "a")).

Definition state_C : scope :=
  Scope (Some "C") [state_C1; plain "2"; plain "3"] []
    [tr "next" "2" "3";
     Transition (Some "tick") (Some "3") None None None None]
    (Some (InitialName "1")).

Definition nested_markup : scope :=
  Scope None [] [plain "A"; plain "B"; state_C; plain "D"]
    [tr "walk" "A" "B"; tr "run" "B" "C"] None.

Definition nested_transitions : list transition :=
  [ tr "walk" "A" "B"; tr "run" "B" "C";
    tr "" "C_anchor" "C_1";
    tr "next" "C_2" "C_3";
    Transition (Some "tick") (Some "C_3") None None None None;
    tr "" "C_1_anchor" "C_1_a";
    tr "go" "C_1_a" "C_1_b" ].

(** [test_if_multiple_edges_are_supported]: four transitions from [a] to
    [b]. *)
Definition multi_edge_markup : scope :=
  Scope None [] [plain "a"; plain "b"]
    [tr "event_0" "a" "b"; tr "event_1" "a" "b";
     tr "event_2" "a" "b"; tr "event_3" "a" "b"] None.

(** A state with a default child to enter but no [children] entry. *)
Definition state_lonely : scope :=
  Scope (Some "A") [] [] [] (Some (InitialName "x")).

Definition lonely_markup : scope := Scope None [] [state_lonely] [] None.

(** A markup whose second state has children but no ["name"] key. *)
Definition nameless_markup : scope :=
  Scope None []
    [plain "A"; Scope None [plain "x"] [] [] None; plain "B"]
    [tr "walk" "A" "B"] None.

(** A nested machine with several transitions between the same two
    states, at the root and inside a state. *)
Definition state_P : scope :=
  Scope (Some "P") [plain "x"; plain "y"] []
    [tr "flip" "x" "y"; tr "flop" "x" "y"; tr "flup" "x" "y"]
    (Some (InitialName "x")).

Definition twin_markup : scope :=
  Scope None [] [plain "a"; plain "b"; state_P]
    [tr "event_0" "a" "b"; tr "event_1" "a" "b"] None.

Definition twin_transitions : list transition :=
  [ tr "event_0" "a" "b"; tr "event_1" "a" "b";
    tr "" "P_anchor" "P_x";
    tr "flip" "P_x" "P_y"; tr "flop" "P_x" "P_y"; tr "flup" "P_x" "P_y" ].

(** Two scopes whose declared transitions give the same entry: the
    transition of [A] is declared on the qualified names of the states of
    its child [b], which declares it too. *)
Definition state_Ab : scope :=
  Scope (Some "b") [plain "c"; plain "d"] [] [tr "go" "c" "d"] None.

Definition state_A : scope :=
  Scope (Some "A") [state_Ab] [] [tr "go" "b_c" "b_d"] None.

Definition echo_markup : scope := Scope None [] [state_A] [] None.

End Flattener.

(** ** BaseGraph._transition_label *)

Module Labels.

(** [key in tran] *)
Definition has_key {A} (field : option A) : bool :=
  match field with Some _ => true | None => false end.

(** [_transition_label], for the machine's [show_conditions] flag. The
    default argument [tran["trigger"]] of [tran.get] is evaluated before
    the call, so a missing trigger raises. *)
Definition _transition_label (show_conditions : bool) (tran : transition)
  : result string :=
  match trigger tran with
  | None => Raise KeyError
  | Some trg =>
      let edge_label := default trg (label tran) in
      let edge_label :=
        if has_key (dest tran) then edge_label
        else edge_label +:+ " [internal]" in
      let edge_label :=
        if show_conditions
           && (has_key (conditions tran) || has_key (unless tran))
        then
          edge_label +:+ " [" +:+
            join " & " (default [] (conditions tran)
                        ++ map (fun u => "!" +:+ u) (default [] (unless tran)))
            +:+ "]"
        else edge_label in
      Ok edge_label
  end.

(** The label as the specification words it: base, internal suffix,
    bracketed condition expression. *)
Definition base_label (tran : transition) (trg : string) : string :=
  match label tran with Some l => l | None => trg end.

Definition internal_suffix (tran : transition) : string :=
  match dest tran with None => " [internal]" | Some _ => "" end.

Definition condition_expression (tran : transition) : string :=
  join " & " (default [] (conditions tran)
              ++ map (String.append "!") (default [] (unless tran))).

Definition carries_guards (tran : transition) : bool :=
  bool_decide (is_Some (conditions tran) \/ is_Some (unless tran)).

Definition condition_suffix (show_conditions : bool) (tran : transition)
  : string :=
  if show_conditions && carries_guards tran
  then " [" +:+ condition_expression tran +:+ "]"
  else "".

End Labels.

(** ** Values of the running machine *)

Module Runtime.

Inductive seq_kind := AList | ATuple | ASet.

(** The Python values a model's attributes hold here. *)
#[local] Unset Elimination Schemes.
Inductive pyval :=
  | PNone
  | PStr (s : string)
  | PNamed (name_attr : string)       (* an object exposing [name] *)
  | PSeq (kind : seq_kind) (items : list pyval)
  | PCallable (tag : string)          (* a method the user defined *)
  | PGetGraph (model : nat).          (* partial(self._get_graph, mod) *)
#[local] Set Elimination Schemes.

(** [hasattr(state, "name")] *)
Definition has_name (v : pyval) : bool :=
  match v with PNamed _ => true | _ => false end.

(** The generator [_flatten], as the list of what it yields. *)
Fixpoint flatten_elem (elem : pyval) : list pyval :=
  match elem with
  | PSeq _ items => flat_map flatten_elem items
  | _ => [elem]
  end.

Definition _flatten (item : list pyval) : list pyval :=
  flat_map flatten_elem item.

(** The attributes of [GraphMachine] read by this module. [dest_attr] is
    what [self.dest] finds on the machine object: the class defines no such
    attribute. *)
Record machine := Machine {
  machine_id : nat;
  title : string;
  show_conditions : bool;
  model_attribute : string;
  separator : string;
  markup : scope;
  dest_attr : option pyval;
}.

(** A model as [add_model] receives it. *)
Inductive model_ref := SelfLiteral | Model (id : nat).

(** The transition object: [self.source] and [self.dest]. *)
Record transition_obj := TransitionObj {
  tr_source : pyval;
  tr_dest : pyval;
}.

Record event_data := EventData {
  ed_machine : machine;
  ed_model : nat;
}.

(** The abstract methods of [BaseGraph], implemented by the rendering
    backends. [generate] is run by the constructor [graph_cls(machine)]. *)
Class GraphBackend (G A : Type) := {
  generate : machine -> G;
  reset_styling : G -> G;
  set_previous_transition : pyval -> pyval -> G -> G;
  set_node_style : pyval -> string -> G -> G;
  get_graph : option string -> option pyval -> G -> A;
}.

(** The store: the machine's [model_graphs] dictionary keyed by
    [id(model)], the attributes of every object, and the log. *)
Record world (G : Type) := World {
  model_graphs : gmap nat G;
  objects : gmap nat (gmap string pyval);
  logged : list log_record;
}.
Arguments World {G}.
Arguments model_graphs {G}.
Arguments objects {G}.
Arguments logged {G}.

(** What this module takes from [transitions.core] and the base classes. *)
Class Core (G : Type) := {
  listify : pyval -> list pyval;
  (* super()._change_state(event_data): the state change and its hooks *)
  core_change_state : event_data -> R (world G) unit;
  (* super().add_model(models, initial), a method of the machine *)
  core_add_model :
    machine -> list model_ref -> option pyval -> R (world G) unit;
}.

Section Machine.

Context {G A : Type} `{!GraphBackend G A} `{!Core G}.

Abbreviation W := (R (world G)).

(** [machine.model_graphs[id(model)]] *)
Definition graph_of (model : nat) : W G := fun w =>
  match model_graphs w !! model with
  | Some g => (w, Ok g)
  | None => (w, Raise KeyError)
  end.

(** [machine.model_graphs[id(model)] = grph] *)
Definition register (model : nat) (grph : G) : W unit := fun w =>
  (World (<[model := grph]> (model_graphs w)) (objects w) (logged w), Ok ()).

(** A method of the graph object registered for [model] that mutates it. *)
Definition on_graph (model : nat) (method : G -> G) : W unit := fun w =>
  (World (alter method model (model_graphs w)) (objects w) (logged w), Ok ()).

(** [hasattr(obj, attr)] and [getattr(obj, attr)] *)
Definition lookup_attr (w : world G) (obj : nat) (attr : string)
  : option pyval :=
  objects w !! obj ≫= fun d => d !! attr.

Definition getattr (obj : nat) (attr : string) : W pyval := fun w =>
  match lookup_attr w obj attr with
  | Some v => (w, Ok v)
  | None => (w, Raise AttributeError)
  end.

Definition hasattr (obj : nat) (attr : string) : W bool := fun w =>
  (w, Ok (bool_decide (is_Some (lookup_attr w obj attr)))).

(** [setattr(obj, attr, v)] *)
Definition setattr (obj : nat) (attr : string) (v : pyval) : W unit :=
  fun w =>
  (World (model_graphs w)
     (<[obj := <[attr := v]> (default ∅ (objects w !! obj))]> (objects w))
     (logged w), Ok ()).

Definition log (lvl : level) (msg : string) : W unit := fun w =>
  (World (model_graphs w) (objects w) (logged w ++ [(lvl, msg)]), Ok ()).

(** [self.dest] where [self] is the machine. *)
Definition machine_dest (self : machine) : W pyval :=
  match dest_attr self with
  | Some v => mret v
  | None => raise AttributeError
  end.

(** *** TransitionGraphSupport._change_state *)

Definition _change_state (self : transition_obj) (event_data : event_data)
  : W unit :=
  let model := ed_model event_data in
  _ ← graph_of model;
  _ ← on_graph model reset_styling;
  _ ← on_graph model (set_previous_transition (tr_source self) (tr_dest self));
  _ ← core_change_state event_data;
  _ ← graph_of model;     (* graph might have changed during change_event *)
  v ← getattr model (model_attribute (ed_machine event_data));
  for_each (_flatten (listify v)) (fun state =>
    on_graph model
      (set_node_style (if has_name state then tr_dest self else state)
         "active")).

(** *** GraphMachine._get_graph *)

(** Lines 189-196, the [force_new] block. *)
Definition build_graph (self : machine) (model : nat) : W unit :=
  let grph := generate self in
  _ ← register model grph;
  try_except
    (v ← getattr model (model_attribute self);
     for_each (_flatten (listify v)) (fun state =>
       node ← (if has_name state then machine_dest self else mret state);
       on_graph model (set_node_style node "active")))
    AttributeError
    (log INFO "Could not set active state of diagram").

(** Line 202: [grph.get_graph(title=title, roi_state=...)]. *)
Definition render (self : machine) (model : nat) (title : option string)
    (show_roi : bool) (grph : G) : W A :=
  roi_state ← (if show_roi
               then v ← getattr model (model_attribute self); mret (Some v)
               else mret None);
  mret (get_graph title roi_state grph).

(** [_get_graph]; the recursion of line 200 consumes fuel. *)
Fixpoint get_graph_fuel (fuel : nat) (self : machine) (model : nat)
    (title : option string) (force_new show_roi : bool)
    (w : world G) : option (world G * result A) :=
  match fuel with
  | 0 => None
  | S fuel' =>
      match (if force_new then build_graph self model else mret ()) w with
      | (w1, Raise e) => Some (w1, Raise e)
      | (w1, Ok _) =>
          let lookup :=
            match graph_of model w1 with
            | (w2, Raise KeyError) =>
                match get_graph_fuel fuel' self model title true false w2 with
                | None => None
                | Some (w3, Raise e) => Some (w3, Raise e)
                | Some (w3, Ok _) => Some (graph_of model w3)
                end
            | r => Some r
            end in
          match lookup with
          | None => None
          | Some (w4, Raise e) => Some (w4, Raise e)
          | Some (w4, Ok grph) =>
              Some (render self model title show_roi grph w4)
          end
      end
  end.

(** The call depth never exceeds two: the inner call forces a new graph. *)
Definition _get_graph (self : machine) (model : nat)
    (title : option string) (force_new show_roi : bool) : W A := fun w =>
  match get_graph_fuel 2 self model title force_new show_roi w with
  | Some r => r
  | None => (w, Raise KeyError)
  end.

(** *** GraphMachine.add_model *)

(** Lines 226-232, the body of the loop over [models]. *)
Definition bind_model (self : machine) (mdl : model_ref) : W unit :=
  let mdl := match mdl with
             | SelfLiteral => machine_id self
             | Model id => id
             end in
  bound ← hasattr mdl "get_graph";
  if (bound : bool) then raise AttributeError
  else
    _ ← setattr mdl "get_graph" (PGetGraph mdl);
    _ ← _get_graph self mdl (Some (title self)) true false;
    mret ().

(** [add_model], for [models = listify(model)]. *)
Definition add_model (self : machine) (models : list model_ref)
    (initial : option pyval) : W unit :=
  _ ← core_add_model self models initial;
  for_each models (bind_model self).

(** *** Vocabulary of the statements about the running machine *)

(** The node that is styled for an element [state] of the flattened current
    state (lines 57 and 194): the element, or [dest] when the element
    exposes [name]. *)
Definition styled_node (dest state : pyval) : pyval :=
  if has_name state then dest else state.

(** The marking loop of lines 54-57 on a graph. *)
Definition mark_active (dest : pyval) (states : list pyval) (g : G) : G :=
  foldl (fun g state => set_node_style (styled_node dest state) "active" g)
    g states.

(** [mod] of line 226. *)
Definition resolve (self : machine) (mdl : model_ref) : nat :=
  match mdl with
  | SelfLiteral => machine_id self
  | Model id => id
  end.

(** The store once the graph of [model] has been worked on by [method]
    and nothing else has changed. *)
Definition with_graph (model : nat) (g : G) (w : world G) : world G :=
  World (<[model := g]> (model_graphs w)) (objects w) (logged w).

End Machine.

(** *** A backend and an engine to run examples *)

Inductive call :=
  | CallGenerate
  | CallResetStyling
  | CallSetPreviousTransition (src dst : pyval)
  | CallSetNodeStyle (state : pyval) (style : string).

(** A backend whose graph is the list of the calls it has received, oldest
    first; the artifact it hands out is that list with the title and the
    region of interest asked for. *)
Definition recorder
  : GraphBackend (list call) (option string * option pyval * list call) :=
  {| generate _ := [CallGenerate];
     reset_styling g := g ++ [CallResetStyling];
     set_previous_transition src dst g :=
       g ++ [CallSetPreviousTransition src dst];
     set_node_style state style g := g ++ [CallSetNodeStyle state style];
     get_graph title roi g := (title, roi, g) |}.

(** Modelled from the spec: [listify] of [transitions.core], which is not
    among the sources. The current state "may be a single name or a
    nested/listed structure": a list or tuple is taken as it is, [None]
    gives the empty list, any other value becomes a one-element list. *)
Definition core_listify (v : pyval) : list pyval :=
  match v with
  | PNone => []
  | PSeq AList items | PSeq ATuple items => items
  | _ => [v]
  end.

(** Modelled from the spec: the engine's part of a state change and of a
    registration, which are not among the sources. "The engine also
    exposes, per observed model, a current state attribute": the state
    change stores the new current state [after] in the model's attribute,
    the registration stores the initial state there. *)
Definition engine (G : Type) (after : pyval) : Core G :=
  {| listify := core_listify;
     core_change_state ed :=
       setattr (ed_model ed) (model_attribute (ed_machine ed)) after;
     core_add_model self models initial :=
       for_each models (fun mdl =>
         setattr (resolve self mdl) (model_attribute self)
           (default PNone initial)) |}.

Definition example_machine : machine :=
  Machine 0 "State Machine" false "state" "_" Flattener.nested_markup None.

(** A store with one model, whose attributes are [attrs]. *)
Definition one_model {G} (id : nat) (attrs : list (string * pyval))
    (graphs : list (nat * G)) : world G :=
  World (list_to_map graphs) {[ id := list_to_map attrs ]} [].

Definition recorded : Type := option string * option pyval * list call.

(** The code of this module over the recording backend and the engine
    that moves the model to [after]. *)
Definition run_change_state (after : pyval)
  : transition_obj -> event_data -> R (world (list call)) unit :=
  @_change_state (list call) recorded recorder (engine (list call) after).

Definition run_get_graph
  : machine -> nat -> option string -> bool -> bool ->
    R (world (list call)) recorded :=
  @_get_graph (list call) recorded recorder (engine (list call) PNone).

Definition run_add_model
  : machine -> list model_ref -> option pyval -> R (world (list call)) unit :=
  @add_model (list call) recorded recorder (engine (list call) PNone).

(** A model whose current state is ["A"], with the graph just generated,
    and the transition [walk] from ["A"] to ["B"]. *)
Definition walker : world (list call) :=
  one_model 1 [("state", PStr "A")] [(1, [CallGenerate])].

Definition walk : transition_obj := TransitionObj (PStr "A") (PStr "B").

Definition walk_event : event_data := EventData example_machine 1.

Definition walker_styled : world (list call) :=
  one_model 1 [("state", PStr "A")]
    [(1, [CallGenerate; CallResetStyling;
          CallSetPreviousTransition (PStr "A") (PStr "B")])].

Definition walker_moved : world (list call) :=
  one_model 1 [("state", PStr "B")]
    [(1, [CallGenerate; CallResetStyling;
          CallSetPreviousTransition (PStr "A") (PStr "B")])].

Definition walker_done : world (list call) :=
  one_model 1 [("state", PStr "B")]
    [(1, [CallGenerate; CallResetStyling;
          CallSetPreviousTransition (PStr "A") (PStr "B");
          CallSetNodeStyle (PStr "B") "active"])].

(** The current state after entering a parallel state whose regions are
    given as objects exposing [name]. *)
Definition regions : pyval := PSeq AList [PNamed "x"; PNamed "y"].

Definition enter_parallel : transition_obj :=
  TransitionObj (PStr "A") (PStr "P").

Definition parallel_calls : list call :=
  [CallGenerate; CallResetStyling;
   CallSetPreviousTransition (PStr "A") (PStr "P");
   CallSetNodeStyle (PStr "P") "active";
   CallSetNodeStyle (PStr "P") "active"].

(** A model without current-state attribute, and one that defines its own
    [get_graph]. *)
Definition stateless : world (list call) := one_model 1 [] [].

Definition stateless_built : world (list call) :=
  World {[ 1 := [CallGenerate] ]} {[ 1 := ∅ ]}
    [(INFO, "Could not set active state of diagram")].

Definition own_get_graph : world (list call) :=
  one_model 1 [("get_graph", PCallable "user")] [].

Definition own_get_graph_registered : world (list call) :=
  one_model 1 [("get_graph", PCallable "user"); ("state", PStr "A")] [].

End Runtime.

(** ** Further vocabulary for the flattener *)

Module Wellformed.

Import Flattener.

(** A state needs its ["name"] when it has a single initial (line 386) or
    children (line 393). *)
Definition named_if_needed (st : scope) : bool :=
  match name st with
  | Some _ => true
  | None =>
      negb (single_initial st)
      && match children st with [] => true | _ :: _ => false end
  end.

(** [well_keyed nested sc]: every key the walk of [sc] reads with
    [d[key]] is there. [nested] tells whether [sc] is walked with a
    non-empty prefix, in which case its transitions need a source. *)
Fixpoint well_keyed (nested : bool) (sc : scope) : bool :=
  match sc with
  | Scope _ ch st trs _ =>
      (negb nested || forallb (fun t => Labels.has_key (source t)) trs)
      && forallb (fun s => named_if_needed s
                           && match children s with
                              | [] => true
                              | _ :: _ => well_keyed true s
                              end) ch
      && forallb (fun s => named_if_needed s
                           && match children s with
                              | [] => true
                              | _ :: _ => well_keyed true s
                              end) st
  end.

(** What is asked of a queue item. *)
Definition item_ok (item : list string * scope) : Prop :=
  well_keyed (match item.1 with [] => false | _ :: _ => true end) item.2
  = true.

(** [stems_from sep markup t']: the entry [t'] is the entry of a
    transition declared in a scope the walk reaches, or the anchor of a
    state of such a scope. *)
Definition stems_from (sep : string) (markup : scope) (t' : transition)
  : Prop :=
  exists p sc, reached markup p sc /\
    ((exists t, In t (transitions sc) /\ emitted_for sep p t t') \/
     (exists st, In st (children sc ++ states sc) /\
                 anchors_of sep p st [t'])).

(** A markup where a nested transition has no source. *)
Definition sourceless_markup : scope :=
  Scope None []
    [Scope (Some "C") [plain "1"] []
       [Transition (Some "go") None (Some "1") None None None] None]
    [] None.

End Wellformed.

(** ** Further vocabulary for [_flatten] *)

Module Sequences.

Import Runtime.

(** [isinstance(elem, (list, tuple, set))] *)
Definition is_sequence (v : pyval) : bool :=
  match v with PSeq _ _ => true | _ => false end.

(** A current state nested three levels deep, with the three kinds of
    sequence. *)
Definition deep_state : list pyval :=
  [PStr "A";
   PSeq ATuple [PStr "B"; PSeq ASet [PStr "C"; PSeq AList []]; PStr "D"];
   PSeq AList [PSeq AList [PStr "E"]]].

End Sequences.

(** ** BaseGraph._convert_state_attributes *)

Module StateLabels.

(** The keys of a state dictionary that [_convert_state_attributes]
    reads. *)
Record state_dict := StateDict {
  sd_label : option string;
  sd_name : option string;
  sd_tags : option (list string);
  sd_on_enter : option (list string);
  sd_on_exit : option (list string);
  sd_timeout : option string;
  sd_on_timeout : option (list string);
}.

(** [_convert_state_attributes], for the machine's
    [show_state_attributes] flag. As in [_transition_label], the default
    [state["name"]] is evaluated before [state.get]. *)
Definition _convert_state_attributes (show_state_attributes : bool)
    (state : state_dict) : result string :=
  match sd_name state with
  | None => Raise KeyError
  | Some n =>
      let label := default n (sd_label state) in
      if show_state_attributes then
        let label :=
          match sd_tags state with
          | Some tags => label +:+ " [" +:+ join ", " tags +:+ "]"
          | None => label
          end in
        let label :=
          match sd_on_enter state with
          | Some on_enter =>
              label +:+ "\l- enter:\l  + " +:+ join "\l  + " on_enter
          | None => label
          end in
        let label :=
          match sd_on_exit state with
          | Some on_exit =>
              label +:+ "\l- exit:\l  + " +:+ join "\l  + " on_exit
          | None => label
          end in
        match sd_timeout state with
        | Some timeout =>
            match sd_on_timeout state with
            | Some on_timeout =>
                Ok (label +:+ "\l- timeout(" +:+ timeout +:+ "s) -> ("
                    +:+ join ", " on_timeout +:+ ")")
            | None => Raise KeyError
            end
        | None => Ok label
        end
      else Ok label
  end.

(** The parts of the label, in the order they are appended. *)
Definition tags_part (state : state_dict) : string :=
  match sd_tags state with
  | Some tags => " [" +:+ join ", " tags +:+ "]"
  | None => ""
  end.

Definition enter_part (state : state_dict) : string :=
  match sd_on_enter state with
  | Some on_enter => "\l- enter:\l  + " +:+ join "\l  + " on_enter
  | None => ""
  end.

Definition exit_part (state : state_dict) : string :=
  match sd_on_exit state with
  | Some on_exit => "\l- exit:\l  + " +:+ join "\l  + " on_exit
  | None => ""
  end.

Definition timeout_part (state : state_dict) : string :=
  match sd_timeout state, sd_on_timeout state with
  | Some timeout, Some on_timeout =>
      "\l- timeout(" +:+ timeout +:+ "s) -> (" +:+ join ", " on_timeout
      +:+ ")"
  | _, _ => ""
  end.

(** The state [A] of [test_state_tags]. *)
Definition tagged_state : state_dict :=
  StateDict None (Some "A") (Some ["new"; "polling"]) (Some ["say_hello"])
    (Some ["say_goodbye"]) (Some "5") (Some ["do_something"]).

End StateLabels.

(** ** Rebuilding the graphs: __setstate__, add_states, add_transition *)

Module Registry.

Import Runtime.

(** The nodes the styling loop of lines 193-194 styles before it ends or
    raises, and whether it ends: an element that exposes [name] stands for
    the machine's [dest] attribute, and stops the loop when the machine has
    none. *)
Fixpoint styled_prefix (dest : option pyval) (states : list pyval)
  : list pyval * bool :=
  match states with
  | [] => ([], true)
  | state :: rest =>
      if has_name state then
        match dest with
        | Some d =>
            let (nodes, completed) := styled_prefix dest rest in
            (d :: nodes, completed)
        | None => ([], false)
        end
      else
        let (nodes, completed) := styled_prefix dest rest in
        (state :: nodes, completed)
  end.

Section Rebuild.

Context {G A : Type} `{!GraphBackend G A} `{!Core G}.

(** [set_node_style(node, "active")] for each node of a list, in order. *)
Definition style_active (nodes : list pyval) (g : G) : G :=
  foldl (fun g node => set_node_style node "active" g) g nodes.

(** The graph that a rebuild registers for a model whose current-state
    attribute is [current] ([None]: no such attribute), and what the
    rebuild logs. *)
Definition fresh_graph (self : machine) (current : option pyval) : G :=
  match current with
  | None => generate self
  | Some v =>
      style_active
        (styled_prefix (dest_attr self) (_flatten (listify v))).1
        (generate self)
  end.

Definition fresh_log (self : machine) (current : option pyval)
  : list log_record :=
  match current with
  | None => [(INFO, "Could not set active state of diagram")]
  | Some v =>
      if (styled_prefix (dest_attr self) (_flatten (listify v))).2 then []
      else [(INFO, "Could not set active state of diagram")]
  end.

(** The store after a rebuild for [model]. *)
Definition rebuilt (self : machine) (model : nat) (w : world G) : world G :=
  let current := lookup_attr w model (model_attribute self) in
  World (<[model := fresh_graph self current]> (model_graphs w)) (objects w)
    (logged w ++ fresh_log self current).

(** [self.model_graphs = {}] *)
Definition clear_graphs : R (world G) unit := fun w =>
  (World ∅ (objects w) (logged w), Ok ()).

(** [__setstate__], once [self.__dict__.update(state)] has restored the
    attributes of the machine [self], among them the list [self.models].
    The text of the exception is left out of the warning. *)
Definition __setstate__ (self : machine) (models : list nat)
  : R (world G) unit :=
  _ ← clear_graphs;
  for_each models (fun model =>
    try_except
      (_ ← _get_graph self model None false false; mret ())
      AttributeError
      (log WARNING
         "Graph for model could not be initialized after pickling: %s")).

(** [self.models], which this module only reads. *)
Variable models_of : machine -> list nat.

(** Calling an attribute value other than the partial that [add_model]
    binds. *)
Variable call_other : pyval -> R (world G) unit.

(** [model.get_graph(force_new=True)] *)
Definition call_get_graph (self : machine) (model : nat)
  : R (world G) unit :=
  f ← getattr model "get_graph";
  match f with
  | PGetGraph m => _ ← _get_graph self m None true false; mret ()
  | other => call_other other
  end.

(** Lines 245-246 and 253-254. *)
Definition regenerate (self : machine) : R (world G) unit :=
  for_each (models_of self) (call_get_graph self).

(** [add_states] and [add_transition]: [base] is the call of the base
    method, which changes the machine in place and is given here as
    returning the machine as it is afterwards. *)
Definition add_states (base : R (world G) machine) : R (world G) unit :=
  self ← base; regenerate self.

Definition add_transition (base : R (world G) machine)
  : R (world G) unit :=
  self ← base; regenerate self.

End Rebuild.

(** A store with two models bound by [add_model], the first one with
    styling left by a transition. *)
Definition two_models : world (list call) :=
  World {[ 1 := [CallGenerate; CallResetStyling;
                 CallSetPreviousTransition (PStr "A") (PStr "B");
                 CallSetNodeStyle (PStr "B") "active"];
           2 := [CallGenerate; CallSetNodeStyle (PStr "A") "active"] ]}
    {[ 1 := {[ "state" := PStr "B"; "get_graph" := PGetGraph 1 ]};
       2 := {[ "state" := PStr "A"; "get_graph" := PGetGraph 2 ]} ]}
    [].

Definition two_models_rebuilt : world (list call) :=
  World {[ 1 := [CallGenerate; CallSetNodeStyle (PStr "B") "active"];
           2 := [CallGenerate; CallSetNodeStyle (PStr "A") "active"] ]}
    (objects two_models) [].

End Registry.

(** * Properties *)

(** ** The store monad *)

Lemma bind_inv_ok {W A B} (m : R W A) (f : A -> R W B) w w' y :
  (m ≫= f) w = (w', Ok y) ->
  exists w1 x, m w = (w1, Ok x) /\ f x w1 = (w', Ok y).
Proof.
  unfold mbind, R_bind. destruct (m w) as [w1 [x|e]]; [eauto | done].
Qed.

Lemma bind_run {W A B} (m : R W A) (f : A -> R W B) w w1 x :
  m w = (w1, Ok x) -> (m ≫= f) w = f x w1.
Proof. unfold mbind, R_bind. by intros ->. Qed.

Lemma bind_raise {W A B} (m : R W A) (f : A -> R W B) w w1 e :
  m w = (w1, Raise e) -> (m ≫= f) w = (w1, Raise e).
Proof. unfold mbind, R_bind. by intros ->. Qed.

Lemma for_each_cons {W A} (x : A) xs (body : A -> R W unit) :
  for_each (x :: xs) body = (body x ≫= fun _ => for_each xs body).
Proof. reflexivity. Qed.

Lemma for_each_nil {W A} (body : A -> R W unit) w :
  for_each [] body w = (w, Ok ()).
Proof. reflexivity. Qed.

Ltac inv_bind H :=
  let w := fresh "w" in let x := fresh "x" in let E := fresh "E" in
  apply bind_inv_ok in H as (w & x & E & H).

(** ** Strings *)

Lemma string_app_assoc (s1 s2 s3 : string) :
  (s1 +:+ s2) +:+ s3 = s1 +:+ (s2 +:+ s3).
Proof.
  induction s1 as [|c s1 IH]; [reflexivity|].
  change (String c ((s1 +:+ s2) +:+ s3) = String c (s1 +:+ (s2 +:+ s3))).
  by rewrite IH.
Qed.

Lemma join_snoc sep (l : list string) (x y : string) :
  join sep (l ++ [x; y]) = join sep (l ++ [x]) +:+ sep +:+ y.
Proof.
  induction l as [|z l IH]; [done|].
  change (join sep ((z :: l) ++ [x; y]))
    with (match l ++ [x; y] with
          | [] => z
          | _ :: _ => z +:+ sep +:+ join sep (l ++ [x; y])
          end).
  change (join sep ((z :: l) ++ [x]))
    with (match l ++ [x] with
          | [] => z
          | _ :: _ => z +:+ sep +:+ join sep (l ++ [x])
          end).
  rewrite IH. destruct l; cbn; by rewrite !string_app_assoc.
Qed.

(** ** The flattener *)

Import Flattener.

Section FlattenerFacts.

Variable sep : string.

Implicit Types (p : list string) (sc st : scope) (a : acc).

Lemma scoped_transition_ok p t a a' t' :
  scoped_transition sep p t a = (a', Ok t') ->
  a' = a /\ emitted_for sep p t t'.
Proof.
  unfold scoped_transition, emitted_for.
  destruct p as [|x p].
  - intros [= <- <-]. done.
  - destruct t as [trg [src|] [d|] c u l]; cbn; intros [= <- <-];
      (split; [done | eexists; split; [done | reflexivity]]).
Qed.

Lemma for_transitions_ok p ts a a' :
  for_each ts (fun transition =>
    tran ← scoped_transition sep p transition; append_transition tran) a
  = (a', Ok ()) ->
  exists emitted,
    Forall2 (emitted_for sep p) ts emitted /\
    a' = Acc (acc_states a) (acc_transitions a ++ emitted) (acc_queue a).
Proof.
  revert a. induction ts as [|t ts IH]; intros a.
  - intros [= <-]. exists []. split; [constructor|].
    rewrite app_nil_r. by destruct a.
  - rewrite for_each_cons. intros H. inv_bind H. inv_bind E.
    apply scoped_transition_ok in E0 as [-> Ht].
    injection E as <-.
    apply IH in H as (emitted & HF & ->). cbn.
    exists (x0 :: emitted). split; [by constructor|].
    by rewrite <- app_assoc.
Qed.

Lemma visit_state_ok p st a a' :
  visit_state sep p st a = (a', Ok ()) ->
  exists block,
    anchors_of sep p st block /\
    a' = Acc (acc_states a ++ match p with [] => [st] | _ :: _ => [] end)
             (acc_transitions a ++ block)
             (acc_queue a ++ option_list (enq_item p st)).
Proof.
  unfold visit_state, anchors_of, enq_item. intros H.
  inv_bind H. inv_bind H.
  assert (w = Acc (acc_states a ++ match p with [] => [st] | _ :: _ => [] end)
                  (acc_transitions a) (acc_queue a)) as ->.
  { destruct p; injection E as <-; [done|]. rewrite app_nil_r. by destruct a. }
  clear E.
  assert (exists block,
    match initial st with
    | Some (InitialName ini) | Some (InitialObject ini) =>
        exists n, name st = Some n /\ block = [anchor sep p n ini]
    | _ => block = []
    end /\
    w0 = Acc (acc_states a ++ match p with [] => [st] | _ :: _ => [] end)
             (acc_transitions a ++ block) (acc_queue a)) as (block & Hb & ->).
  { destruct (initial st) as [[l|ini|ini]|].
    1,4: injection E0 as <-; exists []; by rewrite app_nil_r.
    all: inv_bind E0; inv_bind E0;
      destruct (name st) as [n|]; [|done];
      injection E as <- <-; injection E1 as <- <-; injection E0 as <-;
      exists [anchor sep p n ini]; split; [eauto|];
      unfold anchor; by rewrite join_snoc. }
  clear E0. exists block. split; [done|].
  destruct (children st) as [|c cs].
  - injection H as <-. cbn. by rewrite app_nil_r.
  - inv_bind H. destruct (name st) as [n|]; [|done].
    injection E as <- <-. injection H as <-. done.
Qed.

Lemma for_states_ok p ss a a' :
  for_each ss (visit_state sep p) a = (a', Ok ()) ->
  exists blocks,
    Forall2 (anchors_of sep p) ss blocks /\
    a' = Acc (acc_states a ++ match p with [] => ss | _ :: _ => [] end)
             (acc_transitions a ++ concat blocks)
             (acc_queue a ++ omap (enq_item p) ss).
Proof.
  revert a. induction ss as [|st ss IH]; intros a.
  - intros [= <-]. exists []. split; [constructor|].
    destruct p, a; cbn; by rewrite ?app_nil_r.
  - rewrite for_each_cons. intros H. inv_bind H. destruct x.
    apply visit_state_ok in E as (block & Hb & ->).
    apply IH in H as (blocks & HF & ->). cbn.
    exists (block :: blocks). split; [by constructor|].
    cbn. rewrite <- !app_assoc. f_equal.
    + by destruct p.
    + by destruct (enq_item p st).
Qed.

Lemma visit_scope_ok p sc a a' :
  visit_scope sep p sc a = (a', Ok ()) ->
  exists emitted blocks,
    Forall2 (emitted_for sep p) (transitions sc) emitted /\
    Forall2 (anchors_of sep p) (children sc ++ states sc) blocks /\
    a' = Acc (acc_states a
                ++ match p with [] => children sc ++ states sc | _ :: _ => [] end)
             (acc_transitions a ++ emitted ++ concat blocks)
             (acc_queue a ++ omap (enq_item p) (children sc ++ states sc)).
Proof.
  unfold visit_scope. intros H. inv_bind H. destruct x.
  apply for_transitions_ok in E as (emitted & He & ->).
  apply for_states_ok in H as (blocks & Hb & ->). cbn.
  exists emitted, blocks. by rewrite <- app_assoc.
Qed.

(** *** Termination of the walk *)

Lemma queue_weight_app q1 q2 :
  queue_weight (q1 ++ q2) = queue_weight q1 + queue_weight q2.
Proof. unfold queue_weight. by rewrite map_app, list_sum_app. Qed.

Lemma enq_weight p ss :
  queue_weight (omap (enq_item p) ss) <= list_sum (map scope_size ss).
Proof.
  induction ss as [|st ss IH]; [done|].
  unfold queue_weight, list_sum in *. cbn. unfold enq_item at 1.
  destruct (children st); [cbn; lia|].
  destruct (name st); cbn; lia.
Qed.

Lemma scope_size_children sc :
  scope_size sc = S (list_sum (map scope_size (children sc ++ states sc))).
Proof. destruct sc. cbn. by rewrite map_app, list_sum_app. Qed.

Lemma while_total fuel a :
  queue_weight (acc_queue a) < fuel ->
  exists r, while_queue sep fuel a = Some r.
Proof.
  revert a. induction fuel as [|fuel IH]; intros a Hw; [lia|].
  cbn [while_queue]. destruct (acc_queue a) as [|[p sc] rest] eqn:Eq; [eauto|].
  destruct (visit_scope sep p sc _) as [a1 [[]|e]] eqn:Ev; [|eauto].
  apply visit_scope_ok in Ev as (emitted & blocks & _ & _ & ->).
  apply IH. cbn [acc_queue]. rewrite queue_weight_app.
  pose proof (enq_weight p (children sc ++ states sc)) as Hle.
  change (queue_weight ((p, sc) :: rest))
    with (scope_size sc + queue_weight rest) in Hw.
  rewrite scope_size_children in Hw. lia.
Qed.

Lemma while_mono fuel fuel' a r :
  while_queue sep fuel a = Some r -> fuel <= fuel' ->
  while_queue sep fuel' a = Some r.
Proof.
  revert fuel' a. induction fuel as [|fuel IH]; intros fuel' a; [done|].
  destruct fuel' as [|fuel']; [lia|]. cbn [while_queue].
  destruct (acc_queue a) as [|[p sc] rest]; [done|].
  destruct (visit_scope sep p sc _) as [a1 [[]|e]]; [|done].
  intros H ?. apply IH; [done | lia].
Qed.

(** *** What a walk without exception has appended *)

Lemma enq_item_In p sc st n :
  In st (children sc ++ states sc) -> children st <> [] -> name st = Some n ->
  In (p ++ [n], st) (omap (enq_item p) (children sc ++ states sc)).
Proof.
  intros Hin Hch Hn. apply list_elem_of_In, list_elem_of_omap.
  exists st. split; [by apply list_elem_of_In|].
  unfold enq_item. destruct (children st); [done|]. by rewrite Hn.
Qed.

Lemma while_appends fuel a a' :
  while_queue sep fuel a = Some (a', Ok ()) ->
  exists more, acc_transitions a' = acc_transitions a ++ more.
Proof.
  revert a. induction fuel as [|fuel IH]; intros a; [done|].
  cbn [while_queue]. destruct (acc_queue a) as [|[p sc] rest] eqn:Eq.
  - intros [= <-]. exists []. by rewrite app_nil_r.
  - destruct (visit_scope sep p sc _) as [a1 [[]|e]] eqn:Ev; [|done].
    apply visit_scope_ok in Ev as (emitted & blocks & _ & _ & ->).
    intros H. apply IH in H as [more ->]. cbn.
    eexists. by rewrite <- app_assoc.
Qed.

Lemma while_reach fuel a a' :
  while_queue sep fuel a = Some (a', Ok ()) ->
  forall p0 sc0 p sc,
    In (p0, sc0) (acc_queue a) -> descends p0 sc0 p sc ->
    exists before slice after,
      acc_transitions a' = acc_transitions a ++ before ++ slice ++ after /\
      scope_slice sep p sc slice.
Proof.
  revert a. induction fuel as [|fuel IH]; intros a; [done|].
  cbn [while_queue]. destruct (acc_queue a) as [|[p1 sc1] rest] eqn:Eq.
  { intros _ ? ? ? ? []. }
  destruct (visit_scope sep p1 sc1 _) as [a1 [[]|e]] eqn:Ev; [|done].
  apply visit_scope_ok in Ev as (emitted & blocks & He & Hb & ->).
  intros Hrun p0 sc0 p sc Hin Hd.
  assert (forall q sq, In (q, sq) (rest ++ omap (enq_item p1)
                                     (children sc1 ++ states sc1)) ->
            descends q sq p sc ->
            exists before slice after,
              acc_transitions a' = acc_transitions a ++ before ++ slice ++ after
              /\ scope_slice sep p sc slice) as Hlater.
  { intros q sq Hq Hdq.
    destruct (IH _ Hrun q sq p sc Hq Hdq) as (before & slice & after & Ht & Hs).
    cbn in Ht. exists ((emitted ++ concat blocks) ++ before), slice, after.
    split; [|done]. rewrite Ht. by rewrite <- !app_assoc. }
  destruct Hin as [[= <- <-]|Hin].
  - inversion Hd as [|? ? st n ? ? Hst Hch Hn Hd']; subst.
    + destruct (while_appends _ _ _ Hrun) as [more Hmore]. cbn in Hmore.
      exists [], (emitted ++ concat blocks), more.
      split; [|by exists emitted, blocks].
      rewrite Hmore. cbn. by rewrite <- !app_assoc.
    + apply (Hlater (p1 ++ [n]) st); [|done].
      apply in_or_app. right. by apply enq_item_In.
  - apply (Hlater p0 sc0); [|done]. apply in_or_app. by left.
Qed.

Lemma while_head fuel a a' p sc rest :
  while_queue sep fuel a = Some (a', Ok ()) ->
  acc_queue a = (p, sc) :: rest ->
  exists slice after,
    acc_transitions a' = acc_transitions a ++ slice ++ after /\
    scope_slice sep p sc slice.
Proof.
  destruct fuel as [|fuel]; [done|]. cbn [while_queue]. intros H Eq.
  rewrite Eq in H.
  destruct (visit_scope sep p sc _) as [a1 [[]|e]] eqn:Ev; [|done].
  apply visit_scope_ok in Ev as (emitted & blocks & He & Hb & ->).
  destruct (while_appends _ _ _ H) as [more Hmore]. cbn in Hmore.
  exists (emitted ++ concat blocks), more.
  split; [|by exists emitted, blocks].
  rewrite Hmore. by rewrite <- !app_assoc.
Qed.

(** *** What the walk does whether or not it raises *)

Lemma appends_refl a : appends a a.
Proof. exists []. by rewrite app_nil_r. Qed.

Lemma appends_trans a1 a2 a3 : appends a1 a2 -> appends a2 a3 -> appends a1 a3.
Proof.
  intros [m1 H1] [m2 H2]. exists (m1 ++ m2). by rewrite H2, H1, app_assoc.
Qed.

Lemma tame_bind {A B} (m : M A) (f : A -> M B) :
  tame m -> (forall x, tame (f x)) -> tame (m ≫= f).
Proof.
  intros Hm Hf a a' r. unfold mbind, R_bind.
  destruct (m a) as [a1 [x|e]] eqn:Em.
  - intros Hfx. destruct (Hm _ _ _ Em) as [Ha _].
    destruct (Hf x _ _ _ Hfx) as [Ha' He].
    split; [by eapply appends_trans | done].
  - intros [= <- <-]. destruct (Hm _ _ _ Em) as [Ha He].
    split; [done|]. intros e0 [= <-]. by apply He.
Qed.

Lemma tame_ret {A} (x : A) : tame (mret x).
Proof. intros a a' r [= <- <-]. split; [apply appends_refl | done]. Qed.

Lemma tame_getitem {A} (field : option A) : tame (getitem field).
Proof.
  intros a a' r. unfold getitem.
  destruct field; intros [= <- <-]; (split; [apply appends_refl|]);
    congruence.
Qed.

Lemma tame_append_transition t : tame (append_transition t).
Proof. intros a a' r [= <- <-]. split; [by eexists | done]. Qed.

Lemma tame_append_state st : tame (append_state st).
Proof.
  intros a a' r [= <- <-]. split; [|done].
  exists []. cbn. by rewrite app_nil_r.
Qed.

Lemma tame_enqueue item : tame (enqueue item).
Proof.
  intros a a' r [= <- <-]. split; [|done].
  exists []. cbn. by rewrite app_nil_r.
Qed.

Lemma tame_for_each {A} (xs : list A) (body : A -> M unit) :
  (forall x, tame (body x)) -> tame (for_each xs body).
Proof.
  intros Hb. induction xs as [|x xs IH]; [apply tame_ret|].
  rewrite for_each_cons. by apply tame_bind.
Qed.

Create HintDb tame.

#[local] Hint Resolve tame_ret tame_getitem tame_append_transition
  tame_append_state tame_enqueue : tame.

Lemma tame_scoped_transition p t : tame (scoped_transition sep p t).
Proof.
  unfold scoped_transition. destruct p; [auto with tame|].
  apply tame_bind; [auto with tame|]. intros src. cbn.
  destruct (dest t); auto with tame.
Qed.

Lemma tame_visit_state p st : tame (visit_state sep p st).
Proof.
  unfold visit_state.
  apply tame_bind; [destruct p; auto with tame|]. intros _.
  apply tame_bind.
  - destruct (initial st) as [[l|ini|ini]|]; auto with tame;
      (apply tame_bind; [auto with tame|]; intros n;
       apply tame_bind; auto with tame).
  - intros _. destruct (children st); [auto with tame|].
    apply tame_bind; auto with tame.
Qed.

Lemma tame_visit_scope p sc : tame (visit_scope sep p sc).
Proof.
  unfold visit_scope. apply tame_bind.
  - apply tame_for_each. intros t.
    apply tame_bind; [apply tame_scoped_transition | auto with tame].
  - intros _. apply tame_for_each, tame_visit_state.
Qed.

Lemma while_tame fuel a a' r :
  while_queue sep fuel a = Some (a', r) ->
  appends a a' /\ (r = Ok () \/ r = Raise KeyError).
Proof.
  revert a. induction fuel as [|fuel IH]; intros a; [done|].
  cbn [while_queue]. destruct (acc_queue a) as [|[p sc] rest] eqn:Eq.
  - intros [= <- <-]. split; [apply appends_refl | by left].
  - destruct (visit_scope sep p sc _) as [a1 [[]|e]] eqn:Ev;
      apply tame_visit_scope in Ev as [Ha He].
    + intros H. apply IH in H as [Ha' Hr]. split; [|done].
      revert Ha Ha'. apply appends_trans.
    + intros [= <- <-]. split; [done|]. right. by rewrite (He e).
Qed.

(** The transitions of a scope with the empty prefix are appended as they
    are, and that loop cannot raise. *)
Lemma for_transitions_root ts a :
  for_each ts (fun transition =>
    tran ← scoped_transition sep [] transition; append_transition tran) a
  = (Acc (acc_states a) (acc_transitions a ++ ts) (acc_queue a), Ok ()).
Proof.
  revert a. induction ts as [|t ts IH]; intros a.
  - rewrite for_each_nil, app_nil_r. by destruct a.
  - rewrite for_each_cons.
    erewrite bind_run by reflexivity. rewrite IH. cbn.
    by rewrite <- app_assoc.
Qed.

(** *** The run behind [_get_elements] *)

Lemma walk_terminates markup :
  exists a r,
    (forall fuel, fuel_for markup <= fuel ->
       while_queue sep fuel (start markup) = Some (a, r)) /\
    try_block sep markup = (a, r) /\
    (r = Ok () \/ r = Raise KeyError).
Proof.
  destruct (while_total (fuel_for markup) (start markup)) as [[a r] Hrun].
  { unfold fuel_for, start, queue_weight, list_sum. cbn. lia. }
  exists a, r. split; [|split].
  - intros fuel Hle. by apply (while_mono _ _ _ _ Hrun).
  - unfold try_block. fold (start markup). by rewrite Hrun.
  - by apply while_tame in Hrun as [_ ?].
Qed.

Lemma get_elements_ok_run markup sts trs :
  _get_elements sep markup = (Ok (sts, trs), []) ->
  exists a,
    while_queue sep (fuel_for markup) (start markup) = Some (a, Ok ()) /\
    sts = acc_states a /\ trs = acc_transitions a.
Proof.
  destruct (walk_terminates markup) as (a & r & Hrun & Htry & Hr).
  unfold _get_elements. rewrite Htry.
  destruct Hr as [-> | ->]; [|done].
  intros [= <- <-]. exists a. split; [|done]. by apply Hrun.
Qed.

Lemma descends_prefix p0 sc0 p sc :
  descends p0 sc0 p sc ->
  (p = p0 /\ sc = sc0) \/ length p0 < length p.
Proof.
  induction 1 as [|p0 sc0 st n p sc _ _ _ _ IH]; [by left|].
  right. destruct IH as [[-> _]|IH]; rewrite ?length_app in *; cbn in *; lia.
Qed.

Lemma reached_root markup sc : reached markup [] sc -> sc = markup.
Proof.
  intros H. apply descends_prefix in H as [[_ ->]|H]; [done|].
  cbn in H. lia.
Qed.

Lemma emitted_for_root ts emitted :
  Forall2 (emitted_for sep []) ts emitted -> emitted = ts.
Proof. induction 1 as [|t t' ts em Ht _ IH]; [done|]. cbn in Ht. congruence. Qed.

Lemma Forall2_In_l {A B} (P : A -> B -> Prop) l k x :
  Forall2 P l k -> In x l -> exists y, In y k /\ P x y.
Proof.
  induction 1 as [|x' y' l k Hxy _ IH]; [intros []|].
  intros [<-|Hin]; [exists y'; cbn; eauto|].
  destruct (IH Hin) as (y & Hy & HP). exists y. cbn. eauto.
Qed.

Lemma reached_slice markup sts trs p sc :
  _get_elements sep markup = (Ok (sts, trs), []) ->
  reached markup p sc ->
  exists before slice after,
    trs = before ++ slice ++ after /\ scope_slice sep p sc slice.
Proof.
  intros Hrun Hr.
  apply get_elements_ok_run in Hrun as (a & Hrun & -> & ->).
  destruct (while_reach _ _ _ Hrun [] markup p sc) as (b & sl & af & Ht & Hs);
    [by left | done |].
  exists b, sl, af. by split.
Qed.

Lemma anchors_of_count p st block :
  anchors_of sep p st block ->
  length block = if single_initial st then 1 else 0.
Proof.
  unfold anchors_of, single_initial.
  destruct (initial st) as [[l|ini|ini]|]; [by intros ->| | |by intros ->];
    by intros (n & _ & ->).
Qed.

(** *** The transitions list, entry by entry *)

Lemma while_exact fuel a a' :
  while_queue sep fuel a = Some (a', Ok ()) ->
  exists slices,
    acc_transitions a' = acc_transitions a ++ concat slices /\
    Forall2 (fun item slice => scope_slice sep item.1 item.2 slice)
      (visit_order fuel (acc_queue a)) slices.
Proof.
  revert a. induction fuel as [|fuel IH]; intros a; [done|].
  cbn [while_queue visit_order].
  destruct (acc_queue a) as [|[p sc] rest] eqn:Eq.
  - intros [= <-]. exists []. split; [by rewrite app_nil_r | constructor].
  - destruct (visit_scope sep p sc _) as [a1 [[]|e]] eqn:Ev; [|done].
    apply visit_scope_ok in Ev as (emitted & blocks & He & Hb & ->).
    intros H. apply IH in H as (slices & Ht & HF). cbn in Ht, HF.
    exists ((emitted ++ concat blocks) :: slices). split.
    + rewrite Ht. cbn. by rewrite <- !app_assoc.
    + constructor; [by exists emitted, blocks | exact HF].
Qed.

Lemma kids_weight item :
  S (queue_weight (kids item)) <= scope_size item.2.
Proof.
  rewrite scope_size_children.
  pose proof (enq_weight item.1 (children item.2 ++ states item.2)).
  unfold kids. lia.
Qed.

Lemma visit_order_enough fuel fuel' queue :
  queue_weight queue < fuel -> fuel <= fuel' ->
  visit_order fuel' queue = visit_order fuel queue.
Proof.
  revert fuel' queue. induction fuel as [|fuel IH]; intros fuel' queue; [lia|].
  destruct fuel' as [|fuel']; [lia|]. intros Hw Hle. cbn [visit_order].
  destruct queue as [|item rest]; [done|]. f_equal.
  apply IH; [|lia]. rewrite queue_weight_app.
  pose proof (kids_weight item).
  change (queue_weight (item :: rest))
    with (scope_size item.2 + queue_weight rest) in Hw. lia.
Qed.

Lemma visit_order_reach fuel queue p0 sc0 p sc :
  queue_weight queue < fuel ->
  In (p0, sc0) queue -> descends p0 sc0 p sc ->
  In (p, sc) (visit_order fuel queue).
Proof.
  revert queue p0 sc0. induction fuel as [|fuel IH]; intros queue p0 sc0; [lia|].
  intros Hw Hin Hd. cbn [visit_order].
  destruct queue as [|item rest]; [done|].
  assert (queue_weight (rest ++ kids item) < fuel) as Hw'.
  { rewrite queue_weight_app. pose proof (kids_weight item).
    change (queue_weight (item :: rest))
      with (scope_size item.2 + queue_weight rest) in Hw. lia. }
  destruct Hin as [->|Hin].
  - inversion Hd as [|? ? st n ? ? Hst Hch Hn Hd']; subst; [by left|].
    right. apply (IH _ (p0 ++ [n]) st); [done| |done].
    apply in_or_app. right. by apply enq_item_In.
  - right. apply (IH _ p0 sc0); [done| |done]. apply in_or_app. by left.
Qed.

Lemma descends_extend p0 sc0 p sc st n :
  descends p0 sc0 p sc ->
  In st (children sc ++ states sc) -> children st <> [] ->
  name st = Some n ->
  descends p0 sc0 (p ++ [n]) st.
Proof.
  induction 1 as [p sc|p0 sc0 st0 n0 p sc Hin0 Hch0 Hn0 _ IH];
    intros Hin Hch Hn.
  - eapply descends_child; [done..|]. apply descends_here.
  - eapply descends_child; [done..|]. by apply IH.
Qed.

Lemma kids_descend markup item item' :
  reached markup item.1 item.2 -> In item' (kids item) ->
  reached markup item'.1 item'.2.
Proof.
  intros Hr Hin. apply list_elem_of_In, list_elem_of_omap in Hin
    as (st & Hst & Henq).
  unfold enq_item in Henq.
  destruct (children st) as [|c cs] eqn:Hch; [done|].
  destruct (name st) as [n|] eqn:Hn; [|done].
  injection Henq as <-. cbn.
  apply (descends_extend _ _ _ item.2); [done| |by rewrite Hch|done].
  by apply list_elem_of_In.
Qed.

Lemma visit_order_sound markup fuel queue :
  (forall item, In item queue -> reached markup item.1 item.2) ->
  forall item, In item (visit_order fuel queue) ->
    reached markup item.1 item.2.
Proof.
  revert queue. induction fuel as [|fuel IH]; intros queue Hq item; [done|].
  cbn [visit_order]. destruct queue as [|head rest]; [done|].
  intros [<-|Hin]; [apply Hq; by left|].
  apply (IH (rest ++ kids head)); [|done].
  intros item' [Hin'|Hin']%in_app_or; [apply Hq; by right|].
  apply (kids_descend markup head); [|done]. apply Hq. by left.
Qed.

Lemma walk_order_reached markup p sc :
  reached markup p sc <-> In (p, sc) (walk_order markup).
Proof.
  unfold walk_order. split.
  - intros Hr. apply (visit_order_reach _ _ [] markup); [|by left|done].
    unfold fuel_for, queue_weight, list_sum. cbn. lia.
  - intros Hin.
    apply (visit_order_sound markup _ _) with (item := (p, sc)) in Hin;
      [done|].
    intros item [<-|[]]. apply descends_here.
Qed.

Lemma string_app_inj (s x y : string) : s +:+ x = s +:+ y -> x = y.
Proof.
  induction s as [|c s IH]; [done|].
  change (String c (s +:+ x) = String c (s +:+ y) -> x = y).
  intros [= H]. by apply IH.
Qed.

Lemma join_cons (z : string) (m : list string) :
  m <> [] -> join sep (z :: m) = z +:+ sep +:+ join sep m.
Proof. by destruct m. Qed.

Lemma join_last_inj (l : list string) (x y : string) :
  join sep (l ++ [x]) = join sep (l ++ [y]) -> x = y.
Proof.
  induction l as [|z l IH]; [done|].
  rewrite <- !app_comm_cons, !join_cons by (by destruct l).
  intros H. by apply string_app_inj, string_app_inj, IH in H.
Qed.

Lemma emitted_for_inj p t1 t2 t' :
  emitted_for sep p t1 t' -> emitted_for sep p t2 t' -> t1 = t2.
Proof.
  unfold emitted_for. destruct p as [|x p]; [congruence|].
  intros (s1 & Hs1 & ->) (s2 & Hs2 & [= Htrg Hsrc Hdst Hc Hu Hl]).
  apply (join_last_inj (x :: p) s1 s2) in Hsrc as ->.
  destruct t1 as [trg1 src1 [d1|] c1 u1 l1], t2 as [trg2 src2 [d2|] c2 u2 l2];
    cbn in *; try done.
  - injection Hdst as Hd. apply (join_last_inj (x :: p) d1 d2) in Hd.
    congruence.
  - congruence.
Qed.

Lemma Forall2_entry_of {X Y} (P : X -> Y -> Prop) l k y :
  Forall2 P l k -> In y k -> exists x, In x l /\ P x y.
Proof.
  induction 1 as [|x' y' l k Hxy _ IH]; [intros []|].
  intros [<-|Hin]; [exists x'; cbn; eauto|].
  destruct (IH Hin) as (x & Hx & HP). exists x. cbn. eauto.
Qed.

Lemma emitted_NoDup p ts emitted :
  Forall2 (emitted_for sep p) ts emitted -> NoDup ts -> NoDup emitted.
Proof.
  induction 1 as [|t t' ts emitted Ht HF IH]; [done|].
  intros [Hnotin Hnd]%NoDup_cons. apply NoDup_cons. split; [|by apply IH].
  intros Hin. apply Hnotin.
  apply list_elem_of_In in Hin.
  destruct (Forall2_entry_of _ _ _ _ HF Hin) as (t2 & Hin2 & Ht2).
  rewrite (emitted_for_inj _ _ _ _ Ht Ht2). by apply list_elem_of_In.
Qed.

Lemma anchors_length p sts blocks :
  Forall2 (anchors_of sep p) sts blocks ->
  length (concat blocks) = list_sum (map anchor_count sts).
Proof.
  induction 1 as [|st block sts blocks Hb _ IH]; [done|].
  cbn. rewrite length_app, IH. unfold anchor_count at 2.
  by rewrite (anchors_of_count _ _ _ Hb).
Qed.

Lemma slices_length items slices :
  Forall2 (fun item slice => scope_slice sep item.1 item.2 slice)
    items slices ->
  length (concat slices) = list_sum (map entries_of items).
Proof.
  induction 1 as [|item slice items slices Hs _ IH]; [done|].
  cbn. rewrite length_app, IH. f_equal.
  destruct Hs as (emitted & blocks & -> & He & Hb).
  rewrite length_app, (anchors_length _ _ _ Hb).
  unfold entries_of. f_equal. symmetry. by eapply Forall2_length.
Qed.

(** C1. When the flattener returns without having logged an incomplete
    creation, the transitions declared at the root open the flattened list
    as they were declared, and every scope the walk reaches contributes one
    entry per declared transition, contiguous and in declaration order.
    Entries are never merged, whatever their source and dest: the scopes
    the walk visits are exactly the reached ones, and the flattened list is,
    entry for entry, the concatenation over the visited scopes, in the order
    of the visit, of the entries of the scope's declared transitions
    followed by the anchors of its states. The entries of one scope are
    as many as its declared transitions and are pairwise distinct when the
    declarations are, and the length of the flattened list is the sum of
    the numbers of declared transitions and of anchors of the visited
    scopes. *)
Theorem declared_transitions_kept markup sts trs :
  _get_elements sep markup = (Ok (sts, trs), []) ->
  (exists after, trs = transitions markup ++ after) /\
  (forall p sc, reached markup p sc ->
     exists before emitted after,
       trs = before ++ emitted ++ after /\
       Forall2 (emitted_for sep p) (transitions sc) emitted /\
       length emitted = length (transitions sc)) /\
  (forall p sc, reached markup p sc <-> In (p, sc) (walk_order markup)) /\
  (exists slices,
     trs = concat slices /\
     Forall2 (fun item slice =>
                exists emitted blocks,
                  slice = emitted ++ concat blocks /\
                  Forall2 (emitted_for sep item.1) (transitions item.2)
                    emitted /\
                  length emitted = length (transitions item.2) /\
                  (NoDup (transitions item.2) -> NoDup emitted) /\
                  Forall2 (anchors_of sep item.1)
                    (children item.2 ++ states item.2) blocks)
       (walk_order markup) slices) /\
  length trs = list_sum (map entries_of (walk_order markup)).
Proof.
  intros Hrun. split; [|split; [|split; [apply walk_order_reached|]]].
  - apply get_elements_ok_run in Hrun as (a & Hrun & -> & ->).
    destruct (while_head _ _ _ [] markup [] Hrun eq_refl)
      as (slice & after & Ht & emitted & blocks & -> & He & _).
    apply emitted_for_root in He as ->. cbn in Ht.
    exists (concat blocks ++ after). by rewrite Ht, <- app_assoc.
  - intros p sc Hr.
    destruct (reached_slice _ _ _ _ _ Hrun Hr)
      as (before & slice & after & -> & emitted & blocks & -> & He & _).
    exists before, emitted, (concat blocks ++ after).
    split; [by rewrite <- app_assoc|]. split; [done|].
    symmetry. by eapply Forall2_length.
  - apply get_elements_ok_run in Hrun as (a & Hrun & -> & ->).
    apply while_exact in Hrun as (slices & Ht & HF). cbn in Ht, HF.
    fold (walk_order markup) in HF. split.
    + exists slices. split; [done|].
      eapply Forall2_impl; [exact HF|].
      intros item slice (emitted & blocks & -> & He & Hb).
      exists emitted, blocks. split; [done|]. split; [done|].
      split; [symmetry; by eapply Forall2_length|].
      split; [by apply (emitted_NoDup item.1) | done].
    + rewrite Ht. by apply slices_length.
Qed.

(** C2, as the code has it. In a run that logged nothing, the anchors of
    the states of a reached scope sit together in the flattened list, in
    the order of the states, and each state contributes exactly one anchor
    (empty trigger, source [<qualified name>_anchor], dest
    [<qualified name><separator><initial>]) when its initial is a single
    value, and none when it has no initial or a list; whether the state
    declares children plays no part. *)
Theorem anchors_follow_initial markup sts trs p sc :
  _get_elements sep markup = (Ok (sts, trs), []) ->
  reached markup p sc ->
  exists before blocks after,
    trs = before ++ concat blocks ++ after /\
    Forall2 (fun st block =>
               anchors_of sep p st block /\
               length block = if single_initial st then 1 else 0)
      (children sc ++ states sc) blocks.
Proof.
  intros Hrun Hr.
  destruct (reached_slice _ _ _ _ _ Hrun Hr)
    as (before & slice & after & -> & emitted & blocks & -> & _ & Hb).
  exists (before ++ emitted), blocks, after.
  split; [by rewrite <- !app_assoc|].
  eapply Forall2_impl; [exact Hb|].
  intros st block Ha. split; [done|]. by apply (anchors_of_count p).
Qed.

(** C3. In a run that logged nothing, a transition declared in a scope
    reached with a non-empty prefix has an entry whose source is the
    prefix and the declared source joined by the separator, whose dest is
    prefixed the same way when there is one and stays absent otherwise,
    and whose other keys are those of the declaration; a transition
    declared at the root is entered as it is. *)
Theorem transition_prefixed markup sts trs p sc t :
  _get_elements sep markup = (Ok (sts, trs), []) ->
  reached markup p sc ->
  In t (transitions sc) ->
  exists t', In t' trs /\
    match p with
    | [] => sc = markup /\ t' = t
    | _ :: _ =>
        exists src, source t = Some src /\
          source t' = Some (join sep (p ++ [src])) /\
          dest t' = (fun d => join sep (p ++ [d])) <$> dest t /\
          (dest t' = None <-> dest t = None) /\
          trigger t' = trigger t /\ conditions t' = conditions t /\
          unless t' = unless t /\ label t' = label t
    end.
Proof.
  intros Hrun Hr Hin.
  destruct (reached_slice _ _ _ _ _ Hrun Hr)
    as (before & slice & after & -> & emitted & blocks & -> & He & _).
  destruct (Forall2_In_l _ _ _ _ He Hin) as (t' & Ht' & Hem).
  exists t'. split.
  { apply in_or_app. right. apply in_or_app. left. apply in_or_app. by left. }
  unfold emitted_for in Hem. destruct p as [|x p].
  - split; [by apply reached_root | done].
  - destruct Hem as (src & Hsrc & ->). exists src. cbn.
    repeat split; try done; destruct (dest t); cbn; congruence.
Qed.


End FlattenerFacts.

(** *** The flattener on the example machines *)

Example nested_markup_elements :
  _get_elements "_" nested_markup
  = (Ok ([plain "A"; plain "B"; state_C; plain "D"], nested_transitions), []).
Proof. vm_compute. reflexivity. Qed.

Example multi_edge_elements :
  _get_elements "_" multi_edge_markup
  = (Ok ([plain "a"; plain "b"], transitions multi_edge_markup), []).
Proof. vm_compute. reflexivity. Qed.

Example twin_markup_order :
  walk_order twin_markup = [([], twin_markup); (["P"], state_P)] /\
  map entries_of (walk_order twin_markup) = [3; 3].
Proof. vm_compute. done. Qed.

(** Equal entries that come from different scopes are both kept. *)
Example echo_markup_elements :
  _get_elements "_" echo_markup
  = (Ok ([state_A], [tr "go" "A_b_c" "A_b_d"; tr "go" "A_b_c" "A_b_d"]), []) /\
  walk_order echo_markup
  = [([], echo_markup); (["A"], state_A); (["A"; "b"], state_Ab)].
Proof. vm_compute. done. Qed.

Example nameless_markup_elements :
  _get_elements "_" nameless_markup
  = (Ok ([plain "A"; Scope None [plain "x"] [] [] None], [tr "walk" "A" "B"]),
     [(ERROR, "Graph creation incomplete!")]).
Proof. vm_compute. reflexivity. Qed.

Lemma reached_state_C : reached nested_markup ["C"] state_C.
Proof.
  apply (descends_child [] nested_markup state_C "C");
    [cbn; tauto | done | done | apply descends_here].
Defined.

Lemma declared_transitions_kept_witness :
  (exists after, twin_transitions = transitions twin_markup ++ after) /\
  (forall p sc, reached twin_markup p sc ->
     exists before emitted after,
       twin_transitions = before ++ emitted ++ after /\
       Forall2 (emitted_for "_" p) (transitions sc) emitted /\
       length emitted = length (transitions sc)) /\
  (forall p sc, reached twin_markup p sc <-> In (p, sc) (walk_order twin_markup)) /\
  (exists slices,
     twin_transitions = concat slices /\
     Forall2 (fun item slice =>
                exists emitted blocks,
                  slice = emitted ++ concat blocks /\
                  Forall2 (emitted_for "_" item.1) (transitions item.2)
                    emitted /\
                  length emitted = length (transitions item.2) /\
                  (NoDup (transitions item.2) -> NoDup emitted) /\
                  Forall2 (anchors_of "_" item.1)
                    (children item.2 ++ states item.2) blocks)
       (walk_order twin_markup) slices) /\
  length twin_transitions = list_sum (map entries_of (walk_order twin_markup)).
Proof.
  apply (declared_transitions_kept "_" twin_markup
           [plain "a"; plain "b"; state_P] twin_transitions).
  vm_compute. reflexivity.
Defined.

Lemma anchors_follow_initial_witness :
  exists before blocks after,
    nested_transitions = before ++ concat blocks ++ after /\
    Forall2 (fun st block =>
               anchors_of "_" ["C"] st block /\
               length block = if single_initial st then 1 else 0)
      (children state_C ++ states state_C) blocks.
Proof.
  apply (anchors_follow_initial "_" nested_markup
           [plain "A"; plain "B"; state_C; plain "D"] nested_transitions
           ["C"] state_C).
  - vm_compute. reflexivity.
  - exact reached_state_C.
Defined.

Lemma transition_prefixed_witness :
  exists t', In t' nested_transitions /\
    exists src, Some "2" = Some src /\
      source t' = Some (join "_" (["C"] ++ [src])) /\
      dest t' = (fun d => join "_" (["C"] ++ [d])) <$> Some "3" /\
      (dest t' = None <-> Some "3" = None) /\
      trigger t' = Some "next" /\ conditions t' = None /\
      unless t' = None /\ label t' = None.
Proof.
  apply (transition_prefixed "_" nested_markup
           [plain "A"; plain "B"; state_C; plain "D"] nested_transitions
           ["C"] state_C (tr "next" "2" "3")).
  - vm_compute. reflexivity.
  - exact reached_state_C.
  - cbn. tauto.
Defined.

(** C2 as stated fails: a state that declares no children but has a single
    initial gets its anchor all the same. *)
Lemma anchor_without_children :
  _get_elements "_" lonely_markup
  = (Ok ([state_lonely], [anchor "_" [] "A" "x"]), []) /\
  children state_lonely = [] /\
  ~ (In (anchor "_" [] "A" "x") [anchor "_" [] "A" "x"] ->
     children state_lonely <> [] /\ single_initial state_lonely = true).
Proof.
  split; [vm_compute; reflexivity|]. split; [reflexivity|].
  intros H. destruct H as [H _]; [by left | by apply H].
Qed.

(** ** Edge labels *)

Import Labels.

Lemma string_app_nil_r (s : string) : s +:+ "" = s.
Proof.
  induction s as [|c s IH]; [reflexivity|].
  change (String c (s +:+ "") = String c s). by rewrite IH.
Qed.

Lemma carries_guards_keys tran :
  carries_guards tran = has_key (conditions tran) || has_key (unless tran).
Proof.
  unfold carries_guards.
  by destruct (conditions tran), (unless tran).
Qed.

(** C4. For a transition that has a trigger, the label is the override
    when there is one and the trigger otherwise, followed by [" [internal]"]
    exactly when the transition has no dest, followed, when conditions are
    shown and the transition has a [conditions] or [unless] entry, by the
    conditions and the unless guards, each guard preceded by ["!"], joined
    by [" & "] between square brackets. *)
Theorem transition_label_parts show tran trg :
  trigger tran = Some trg ->
  _transition_label show tran
  = Ok (base_label tran trg +:+ internal_suffix tran
        +:+ condition_suffix show tran) /\
  (internal_suffix tran = " [internal]" <-> dest tran = None) /\
  (condition_suffix show tran
   = if show && carries_guards tran
     then " [" +:+ join " & "
                     (default [] (conditions tran)
                      ++ map (String.append "!") (default [] (unless tran)))
          +:+ "]"
     else "").
Proof.
  intros Htrg. split; [|split].
  - unfold _transition_label, base_label, internal_suffix, condition_suffix,
      condition_expression.
    rewrite Htrg, carries_guards_keys.
    destruct (label tran) as [l|], (dest tran) as [d|];
      destruct (show && (has_key (conditions tran) || has_key (unless tran)));
      cbn [default has_key]; f_equal;
      rewrite ?string_app_nil_r, ?string_app_assoc; reflexivity.
  - unfold internal_suffix. destruct (dest tran); split; congruence.
  - reflexivity.
Qed.

Lemma transition_label_parts_witness :
  let tran := Transition (Some "fail") (Some "A") None
                (Some ["failed"; "hot"]) (Some ["ready"]) None in
  _transition_label true tran
  = Ok ("fail [internal] [failed & hot & !ready]") /\
  _transition_label true tran
  = Ok (base_label tran "fail" +:+ internal_suffix tran
        +:+ condition_suffix true tran).
Proof.
  split; [vm_compute; reflexivity|].
  apply (transition_label_parts true
           (Transition (Some "fail") (Some "A") None
              (Some ["failed"; "hot"]) (Some ["ready"]) None) "fail").
  reflexivity.
Defined.

(** ** The running machine *)

Import Runtime.

Section RuntimeFacts.

Context {G A : Type} `{!GraphBackend G A} `{!Core G}.

Implicit Types (w : world G) (self : transition_obj) (ed : event_data).

Lemma mark_loop model dest states w :
  for_each states (fun state =>
    on_graph model
      (set_node_style (if has_name state then dest else state) "active")) w
  = (World (alter (mark_active dest states) model (model_graphs w))
       (objects w) (logged w), Ok ()).
Proof.
  revert w. induction states as [|state states IH]; intros w.
  - rewrite for_each_nil. rewrite alter_id by done. by destruct w.
  - rewrite for_each_cons. erewrite bind_run by reflexivity.
    rewrite IH. cbn [model_graphs objects logged].
    by rewrite alter_alter_eq.
Qed.

Lemma change_state_run self ed w g0 :
  model_graphs w !! ed_model ed = Some g0 ->
  _change_state self ed w =
  match core_change_state ed
          (with_graph (ed_model ed)
             (set_previous_transition (tr_source self) (tr_dest self)
                (reset_styling g0)) w) with
  | (w2, Raise e) => (w2, Raise e)
  | (w2, Ok _) =>
      match model_graphs w2 !! ed_model ed with
      | None => (w2, Raise KeyError)
      | Some g2 =>
          match lookup_attr w2 (ed_model ed)
                  (model_attribute (ed_machine ed)) with
          | None => (w2, Raise AttributeError)
          | Some v =>
              (with_graph (ed_model ed)
                 (mark_active (tr_dest self) (_flatten (listify v)) g2) w2,
               Ok ())
          end
      end
  end.
Proof.
  intros Hg. unfold _change_state.
  erewrite bind_run by (unfold graph_of; by rewrite Hg).
  erewrite bind_run by reflexivity.
  erewrite bind_run by reflexivity.
  cbn [model_graphs objects logged]. rewrite alter_alter_eq.
  rewrite (alter_alt_Some _ _ _ _ Hg). cbn [compose]. fold (with_graph
    (ed_model ed)
    (set_previous_transition (tr_source self) (tr_dest self) (reset_styling g0))
    w).
  unfold mbind at 1, R_bind at 1.
  destruct (core_change_state ed _) as [w2 [[]|e]]; [|done].
  unfold mbind at 1, R_bind at 1, graph_of at 1.
  destruct (model_graphs w2 !! ed_model ed) as [g2|] eqn:Hg2; [|done].
  unfold mbind at 1, R_bind at 1, getattr at 1.
  destruct (lookup_attr w2 _ _) as [v|]; [|done].
  rewrite mark_loop. by rewrite (alter_alt_Some _ _ _ _ Hg2).
Qed.

Lemma mark_active_plain dest states (g : G) :
  Forall (fun state => has_name state = false) states ->
  mark_active dest states g
  = foldl (fun g state => set_node_style state "active" g) g states.
Proof.
  intros Hp. revert g. induction Hp as [|state states Hs _ IH]; intros g.
  - reflexivity.
  - cbn. unfold styled_node at 2. rewrite Hs. apply IH.
Qed.

(** C5. When the model has a graph, the state change of the base class,
    and with it every state-change hook, runs on a store in which that
    graph has had [reset_styling] and then [set_previous_transition(source,
    dest)] applied and no [set_node_style]; when it raises, nothing more is
    done; when it returns, the active style is set afterwards, on the graph
    registered for the model at that time. *)
Theorem change_state_order self ed w g0 :
  model_graphs w !! ed_model ed = Some g0 ->
  let model := ed_model ed in
  let styled :=
    with_graph model
      (set_previous_transition (tr_source self) (tr_dest self)
         (reset_styling g0)) w in
  forall w2 r,
    core_change_state ed styled = (w2, r) ->
    match r with
    | Raise e => _change_state self ed w = (w2, Raise e)
    | Ok _ =>
        forall g2 v,
          model_graphs w2 !! model = Some g2 ->
          lookup_attr w2 model (model_attribute (ed_machine ed)) = Some v ->
          _change_state self ed w
          = (with_graph model
               (mark_active (tr_dest self) (_flatten (listify v)) g2) w2,
             Ok ())
    end.
Proof.
  intros Hg model styled w2 r Hcore.
  rewrite (change_state_run _ _ _ _ Hg). fold model styled. rewrite Hcore.
  destruct r as [[]|e]; [|done].
  intros g2 v Hg2 Hv. by rewrite Hg2, Hv.
Qed.

(** What the marking loop of lines 54-57 does. When [_change_state]
    returns, the graph of the model is the graph that was registered after
    the state change, with [set_node_style(..., "active")] applied once for
    every element of the flattened current state, in order: to the element
    itself when it is a plain value, to the dest of the transition when the
    element exposes [name]. *)
Theorem active_marks self ed w w' :
  _change_state self ed w = (w', Ok ()) ->
  let model := ed_model ed in
  exists styled w2 g2 v,
    core_change_state ed styled = (w2, Ok ()) /\
    model_graphs w2 !! model = Some g2 /\
    lookup_attr w2 model (model_attribute (ed_machine ed)) = Some v /\
    lookup_attr w' model (model_attribute (ed_machine ed)) = Some v /\
    model_graphs w' !! model
    = Some (mark_active (tr_dest self) (_flatten (listify v)) g2) /\
    (Forall (fun state => has_name state = false) (_flatten (listify v)) ->
     model_graphs w' !! model
     = Some (foldl (fun g state => set_node_style state "active" g) g2
               (_flatten (listify v)))).
Proof.
  intros Hrun model.
  destruct (model_graphs w !! ed_model ed) as [g0|] eqn:Hg.
  2: { unfold _change_state in Hrun. apply bind_inv_ok in Hrun
         as (? & ? & Hgo & _). unfold graph_of in Hgo. by rewrite Hg in Hgo. }
  rewrite (change_state_run _ _ _ _ Hg) in Hrun.
  destruct (core_change_state ed _) as [w2 [[]|e]] eqn:Hcore; [|done].
  destruct (model_graphs w2 !! ed_model ed) as [g2|] eqn:Hg2; [|done].
  destruct (lookup_attr w2 _ _) as [v|] eqn:Hv; [|done].
  injection Hrun as <-.
  eexists _, w2, g2, v. split; [exact Hcore|].
  split; [done|]. split; [done|]. split; [exact Hv|].
  assert (model_graphs
            (with_graph (ed_model ed)
               (mark_active (tr_dest self) (_flatten (listify v)) g2) w2)
          !! model
          = Some (mark_active (tr_dest self) (_flatten (listify v)) g2)) as Hm.
  { cbn. apply lookup_insert_eq. }
  split; [done|]. intros Hp. by rewrite Hm, mark_active_plain.
Qed.

(** *** _get_graph *)

Lemma style_loop (self : machine) model states w :
  exists f r,
    for_each states (fun state =>
      node ← (if has_name state then machine_dest self else mret state);
      on_graph model (set_node_style node "active")) w
    = (World (alter f model (model_graphs w)) (objects w) (logged w), r) /\
    (r = Ok () \/ r = Raise AttributeError).
Proof.
  revert w. induction states as [|state states IH]; intros w.
  - exists id, (Ok ()). rewrite for_each_nil, alter_id by done.
    split; [by destruct w | by left].
  - rewrite for_each_cons.
    assert (exists r1,
      (node ← (if has_name state then machine_dest self else mret state);
       on_graph model (set_node_style node "active")) w = r1 /\
      (r1 = (w, Raise AttributeError) \/
       exists node, r1 = (World (alter (set_node_style node "active") model
                                   (model_graphs w)) (objects w) (logged w),
                          Ok ()))) as (r1 & Hr1 & Hcase).
    { eexists. split; [reflexivity|].
      destruct (has_name state); [|right; by eexists].
      unfold machine_dest. destruct (dest_attr self); [right; by eexists|].
      by left. }
    destruct Hcase as [-> | [node ->]].
    + exists id, (Raise AttributeError). erewrite bind_raise by exact Hr1.
      rewrite alter_id by done. split; [by destruct w | by right].
    + erewrite bind_run by exact Hr1.
      destruct (IH (World (alter (set_node_style node "active") model
                             (model_graphs w)) (objects w) (logged w)))
        as (f & r & -> & Hr).
      cbn [model_graphs objects logged]. rewrite alter_alter_eq.
      by exists (f ∘ set_node_style node "active"), r.
Qed.

Lemma build_graph_run (self : machine) model w :
  exists g lg,
    build_graph self model w
    = (World (<[model := g]> (model_graphs w)) (objects w) (logged w ++ lg),
       Ok ()) /\
    (lookup_attr w model (model_attribute self) = None ->
     g = generate self /\
     lg = [(INFO, "Could not set active state of diagram")]).
Proof.
  unfold build_graph. erewrite bind_run by reflexivity.
  unfold try_except, mbind at 1, R_bind at 1, getattr at 1, lookup_attr.
  cbn [model_graphs objects logged].
  destruct (objects w !! model ≫= _) as [v|] eqn:Hv.
  - match goal with |- context [for_each ?l ?b ?w0] =>
      destruct (style_loop self model l w0) as (f & r & -> & Hr) end.
    cbn [model_graphs objects logged]. rewrite alter_insert_eq.
    destruct Hr as [-> | ->].
    + exists (f (generate self)), []. rewrite app_nil_r. by split.
    + exists (f (generate self)), [(INFO, "Could not set active state of diagram")].
      by split.
  - exists (generate self), [(INFO, "Could not set active state of diagram")].
    by split.
Qed.

Lemma render_run (self : machine) model title show_roi (g : G) w :
  render self model title show_roi g w
  = (w, if show_roi
        then match lookup_attr w model (model_attribute self) with
             | Some v => Ok (get_graph title (Some v) g)
             | None => Raise AttributeError
             end
        else Ok (get_graph title None g)).
Proof.
  unfold render. destruct show_roi; [|done].
  unfold mbind, R_bind, getattr.
  by destruct (lookup_attr w model (model_attribute self)).
Qed.

Lemma get_graph_fuel_S fuel (self : machine) model title force_new show_roi w :
  get_graph_fuel (S fuel) self model title force_new show_roi w
  = match (if force_new then build_graph self model else mret ()) w with
    | (w1, Raise e) => Some (w1, Raise e)
    | (w1, Ok _) =>
        let lookup :=
          match graph_of model w1 with
          | (w2, Raise KeyError) =>
              match get_graph_fuel fuel self model title true false w2 with
              | None => None
              | Some (w3, Raise e) => Some (w3, Raise e)
              | Some (w3, Ok _) => Some (graph_of model w3)
              end
          | r => Some r
          end in
        match lookup with
        | None => None
        | Some (w4, Raise e) => Some (w4, Raise e)
        | Some (w4, Ok grph) => Some (render self model title show_roi grph w4)
        end
    end.
Proof. reflexivity. Qed.

Lemma get_graph_forced fuel (self : machine) model title show_roi w g lg :
  build_graph self model w
  = (World (<[model := g]> (model_graphs w)) (objects w) (logged w ++ lg),
     Ok ()) ->
  get_graph_fuel (S fuel) self model title true show_roi w
  = Some (render self model title show_roi g
            (World (<[model := g]> (model_graphs w)) (objects w)
               (logged w ++ lg))).
Proof.
  intros Hb. cbn [get_graph_fuel]. rewrite Hb.
  unfold graph_of. cbn [model_graphs]. by rewrite lookup_insert_eq.
Qed.

Lemma get_graph_cached fuel (self : machine) model title show_roi w g :
  model_graphs w !! model = Some g ->
  get_graph_fuel (S fuel) self model title false show_roi w
  = Some (render self model title show_roi g w).
Proof.
  intros Hg. cbn [get_graph_fuel]. unfold mret at 1, R_ret at 1, graph_of.
  by rewrite Hg.
Qed.

Lemma get_graph_lazy fuel (self : machine) model title show_roi w g lg :
  model_graphs w !! model = None ->
  build_graph self model w
  = (World (<[model := g]> (model_graphs w)) (objects w) (logged w ++ lg),
     Ok ()) ->
  get_graph_fuel (S (S fuel)) self model title false show_roi w
  = Some (render self model title show_roi g
            (World (<[model := g]> (model_graphs w)) (objects w)
               (logged w ++ lg))).
Proof.
  intros Hg Hb.
  rewrite get_graph_fuel_S. unfold mret at 1, R_ret at 1.
  unfold graph_of at 1. rewrite Hg.
  rewrite (get_graph_forced _ _ _ _ _ _ _ _ Hb), render_run.
  unfold graph_of. cbn [model_graphs]. by rewrite lookup_insert_eq.
Qed.

Lemma get_graph_rebuild (self : machine) model title force_new show_roi w g lg :
  build_graph self model w
  = (World (<[model := g]> (model_graphs w)) (objects w) (logged w ++ lg),
     Ok ()) ->
  force_new = true \/ model_graphs w !! model = None ->
  forall fuel, 2 <= fuel ->
    get_graph_fuel fuel self model title force_new show_roi w
    = Some (render self model title show_roi g
              (World (<[model := g]> (model_graphs w)) (objects w)
                 (logged w ++ lg))).
Proof.
  intros Hb Hcase fuel Hfuel.
  destruct fuel as [|[|fuel]]; [lia | lia |].
  destruct force_new.
  - by apply get_graph_forced.
  - destruct Hcase as [[=]|Hg]. by apply get_graph_lazy.
Qed.

Lemma get_graph_total (self : machine) model title force_new show_roi w :
  exists w' g,
    (forall fuel, 2 <= fuel ->
       get_graph_fuel fuel self model title force_new show_roi w
       = Some (render self model title show_roi g w')) /\
    objects w' = objects w /\
    model_graphs w' !! model = Some g.
Proof.
  destruct (build_graph_run self model w) as (g & lg & Hb & _).
  destruct force_new.
  - eexists _, g. split; [|split].
    + by apply (get_graph_rebuild _ _ _ _ _ _ _ _ Hb); left.
    + done.
    + cbn. apply lookup_insert_eq.
  - destruct (model_graphs w !! model) as [g'|] eqn:Hg.
    + exists w, g'. split; [|done].
      intros [|fuel] ?; [lia|]. by apply get_graph_cached.
    + eexists _, g. split; [|split].
      * by apply (get_graph_rebuild _ _ _ _ _ _ _ _ Hb); right.
      * done.
      * cbn. apply lookup_insert_eq.
Qed.

(** C9, as the code has it. When the graph of a model is built ([force_new]
    set, or nothing cached) and the model has no current-state attribute,
    the graph is generated and cached without any [set_node_style], the
    failure is logged at level INFO, and the artifact of that graph is
    returned provided the region of interest is not asked for; with
    [show_roi] the current state is read again at line 202 and the
    AttributeError reaches the caller. *)
Theorem get_graph_without_state (self : machine) model title force_new show_roi w :
  lookup_attr w model (model_attribute self) = None ->
  force_new = true \/ model_graphs w !! model = None ->
  _get_graph self model title force_new show_roi w
  = (World (<[model := generate self]> (model_graphs w)) (objects w)
       (logged w ++ [(INFO, "Could not set active state of diagram")]),
     if show_roi then Raise AttributeError
     else Ok (get_graph title None (generate self))).
Proof.
  intros Hattr Hcase.
  destruct (build_graph_run self model w) as (g & lg & Hb & Hno).
  destruct (Hno Hattr) as [-> ->].
  unfold _get_graph.
  rewrite (get_graph_rebuild _ _ _ _ _ _ _ _ Hb Hcase 2) by lia.
  rewrite render_run. unfold lookup_attr in *. cbn [objects].
  rewrite Hattr. by destruct show_roi.
Qed.

(** C10. A call of [_get_graph] never runs deeper than two levels; when
    it is over, whatever the arguments and whether it returned or raised,
    the registry has an entry for the model; the only exception it lets
    through is the AttributeError of reading the current state for the
    region of interest, never the KeyError of the registry; and on a model
    without cached graph the call without [force_new] is the call with
    [force_new]: same store, same log, same result. *)
Theorem get_graph_registers (self : machine) model title force_new show_roi w :
  (forall fuel, 2 <= fuel ->
     get_graph_fuel fuel self model title force_new show_roi w
     = Some (_get_graph self model title force_new show_roi w)) /\
  (forall w' r,
     _get_graph self model title force_new show_roi w = (w', r) ->
     is_Some (model_graphs w' !! model) /\
     forall e, r = Raise e ->
       e = AttributeError /\ show_roi = true /\
       lookup_attr w model (model_attribute self) = None) /\
  (model_graphs w !! model = None ->
   _get_graph self model title false show_roi w
   = _get_graph self model title true show_roi w).
Proof.
  split; [|split].
  - destruct (get_graph_total self model title force_new show_roi w)
      as (w' & g & Hrun & _).
    intros fuel Hfuel. unfold _get_graph.
    by rewrite (Hrun 2), (Hrun fuel).
  - destruct (get_graph_total self model title force_new show_roi w)
      as (w1 & g & Hrun & Hobj & Hg).
    intros w' r. unfold _get_graph. rewrite (Hrun 2) by lia.
    rewrite render_run. intros [= <- <-]. split; [by eexists|].
    intros e. unfold lookup_attr. rewrite Hobj.
    destruct show_roi; [|done].
    destruct (objects w !! model ≫= _); [done|]. by intros [= <-].
  - intros Hg.
    destruct (build_graph_run self model w) as (g & lg & Hb & _).
    unfold _get_graph.
    rewrite (get_graph_rebuild _ _ _ false _ _ _ _ Hb) by (auto; lia).
    by rewrite (get_graph_rebuild _ _ _ true _ _ _ _ Hb) by (auto; lia).
Qed.

(** *** add_model *)

Lemma lookup_attr_setattr obj attr v obj' attr' w w' :
  setattr obj attr v w = (w', Ok ()) ->
  lookup_attr w' obj' attr'
  = if decide (obj' = obj /\ attr' = attr) then Some v
    else lookup_attr w obj' attr'.
Proof.
  intros [= <-]. unfold lookup_attr. cbn [objects].
  destruct (decide (obj' = obj)) as [->|Hobj].
  - rewrite lookup_insert_eq. cbn.
    destruct (decide (attr' = attr)) as [->|Hattr].
    + rewrite lookup_insert_eq. by rewrite decide_True.
    + rewrite lookup_insert_ne by done. rewrite decide_False by tauto.
      by destruct (objects w !! obj).
  - rewrite lookup_insert_ne by done. by rewrite decide_False by tauto.
Qed.

Lemma bind_model_conflict (self : machine) mdl w v :
  lookup_attr w (resolve self mdl) "get_graph" = Some v ->
  bind_model self mdl w = (w, Raise AttributeError).
Proof.
  intros Hv. unfold bind_model. fold (resolve self mdl).
  erewrite bind_run by reflexivity. rewrite Hv.
  by rewrite bool_decide_eq_true_2 by eauto.
Qed.

Lemma bind_model_fresh (self : machine) mdl w :
  lookup_attr w (resolve self mdl) "get_graph" = None ->
  exists w0 g lg,
    setattr (resolve self mdl) "get_graph" (PGetGraph (resolve self mdl)) w
    = (w0, Ok ()) /\
    bind_model self mdl w
    = (World (<[resolve self mdl := g]> (model_graphs w0)) (objects w0)
         (logged w0 ++ lg), Ok ()).
Proof.
  intros Hv. unfold bind_model. fold (resolve self mdl).
  erewrite bind_run by reflexivity. rewrite Hv.
  rewrite bool_decide_eq_false_2 by (by intros [? [=]]).
  erewrite bind_run by reflexivity.
  destruct (build_graph_run self (resolve self mdl)
              (setattr (resolve self mdl) "get_graph"
                 (PGetGraph (resolve self mdl)) w).1) as (g & lg & Hb & _).
  eexists _, g, lg. split; [reflexivity|].
  unfold mbind, R_bind, _get_graph.
  rewrite (get_graph_rebuild _ _ _ true _ _ _ _ Hb) by (auto; lia).
  by rewrite render_run.
Qed.

Lemma bind_loop_conflict (self : machine) models w1 m v :
  In m models ->
  lookup_attr w1 (resolve self m) "get_graph" = Some v ->
  exists w',
    for_each models (bind_model self) w1 = (w', Raise AttributeError) /\
    lookup_attr w' (resolve self m) "get_graph" = Some v /\
    model_graphs w' !! resolve self m = model_graphs w1 !! resolve self m /\
    (forall obj attr x,
       lookup_attr w1 obj attr = Some x -> lookup_attr w' obj attr = Some x).
Proof.
  revert w1. induction models as [|mdl models IH]; intros w1 Hin Hv; [done|].
  rewrite for_each_cons.
  destruct (lookup_attr w1 (resolve self mdl) "get_graph") as [v'|] eqn:Hhead.
  - exists w1. erewrite bind_raise by (by eapply bind_model_conflict).
    by repeat split.
  - destruct (bind_model_fresh self mdl w1 Hhead)
      as (w0 & g & lg & Hset & Hbind).
    assert (resolve self m <> resolve self mdl) as Hne by congruence.
    destruct Hin as [->|Hin]; [done|].
    assert (forall obj attr x,
              lookup_attr w1 obj attr = Some x ->
              lookup_attr (World (<[resolve self mdl := g]> (model_graphs w0))
                             (objects w0) (logged w0 ++ lg)) obj attr
              = Some x) as Hkeep.
    { intros obj attr x Hx.
      change (lookup_attr w0 obj attr = Some x).
      rewrite (lookup_attr_setattr _ _ _ obj attr _ _ Hset).
      case_decide as Hd; [|done]. destruct Hd as [-> ->]. congruence. }
    destruct (IH _ Hin (Hkeep _ _ _ Hv)) as (w' & Hrun & Hv' & Hg' & Hk').
    exists w'. erewrite bind_run by exact Hbind.
    split; [done|]. split; [done|]. split.
    + rewrite Hg'. cbn [model_graphs]. rewrite lookup_insert_ne by done.
      by injection Hset as <-.
    + eauto.
Qed.

(** C7, as the code has it. When, once the registration of the base class
    has run, a model of the list exposes [get_graph], [add_model] raises
    AttributeError; that attribute is what it was, no graph is generated or
    cached for that model, and nothing the base registration left on any
    object is removed or overwritten; for a single model the store is
    exactly the one the base registration left. The base registration
    itself has run before the check. *)
Theorem add_model_conflict (self : machine) models initial w w1 m v :
  core_add_model self models initial w = (w1, Ok ()) ->
  In m models ->
  lookup_attr w1 (resolve self m) "get_graph" = Some v ->
  exists w',
    add_model self models initial w = (w', Raise AttributeError) /\
    lookup_attr w' (resolve self m) "get_graph" = Some v /\
    model_graphs w' !! resolve self m = model_graphs w1 !! resolve self m /\
    (forall obj attr x,
       lookup_attr w1 obj attr = Some x -> lookup_attr w' obj attr = Some x) /\
    (models = [m] -> w' = w1).
Proof.
  intros Hcore Hin Hv.
  destruct (bind_loop_conflict self models w1 m v Hin Hv)
    as (w' & Hrun & Hv' & Hg' & Hk').
  exists w'. unfold add_model. erewrite bind_run by exact Hcore.
  repeat split; try done.
  intros ->. rewrite for_each_cons in Hrun.
  erewrite bind_raise in Hrun by (by eapply bind_model_conflict).
  by injection Hrun as <-.
Qed.

End RuntimeFacts.

(** *** The running machine on examples *)

Example walk_recorded :
  run_change_state (PStr "B") walk walk_event walker = (walker_done, Ok ()).
Proof. vm_compute. reflexivity. Qed.

Lemma change_state_order_witness :
  core_change_state (Core := engine (list call) (PStr "B"))
    walk_event walker_styled = (walker_moved, Ok ()) /\
  run_change_state (PStr "B") walk walk_event walker
  = (with_graph 1
       (mark_active (GraphBackend0 := recorder) (PStr "B")
          (_flatten (core_listify (PStr "B")))
          [CallGenerate; CallResetStyling;
           CallSetPreviousTransition (PStr "A") (PStr "B")])
       walker_moved, Ok ()).
Proof.
  split; [vm_compute; reflexivity|].
  apply (@change_state_order (list call) recorded recorder
           (engine (list call) (PStr "B")) walk walk_event walker
           [CallGenerate] eq_refl walker_moved (Ok ()));
    vm_compute; reflexivity.
Defined.

Lemma active_marks_witness :
  exists styled w2 g2 v,
    core_change_state (Core := engine (list call) (PStr "B"))
      walk_event styled = (w2, Ok ()) /\
    model_graphs w2 !! 1 = Some g2 /\
    lookup_attr w2 1 "state" = Some v /\
    lookup_attr walker_done 1 "state" = Some v /\
    model_graphs walker_done !! 1
    = Some (mark_active (GraphBackend0 := recorder) (PStr "B")
              (_flatten (core_listify v)) g2) /\
    (Forall (fun state => has_name state = false) (_flatten (core_listify v)) ->
     model_graphs walker_done !! 1
     = Some (foldl (fun g state => g ++ [CallSetNodeStyle state "active"]) g2
               (_flatten (core_listify v)))).
Proof.
  apply (@active_marks (list call) recorded recorder
           (engine (list call) (PStr "B")) walk walk_event walker walker_done).
  vm_compute. reflexivity.
Defined.

(** C6 does not hold on the code. Line 57 passes the dest of the
    transition instead of the loop variable when the element exposes
    [name]: after a transition to [P] that leaves the current state
    [[x, y]], both given as objects exposing [name], the loop has flattened
    the current state into its two elements and has called
    [set_node_style] twice, both times on [P]; neither [x] nor [y] is
    marked active. *)
Lemma named_states_not_marked :
  exists w',
    run_change_state regions enter_parallel walk_event walker = (w', Ok ()) /\
    lookup_attr w' 1 "state" = Some regions /\
    _flatten (core_listify regions) = [PNamed "x"; PNamed "y"] /\
    model_graphs w' !! 1 = Some parallel_calls /\
    ~ In (CallSetNodeStyle (PNamed "x") "active") parallel_calls /\
    ~ In (CallSetNodeStyle (PNamed "y") "active") parallel_calls.
Proof.
  eexists. split; [vm_compute; reflexivity|].
  split; [vm_compute; reflexivity|]. split; [reflexivity|].
  split; [vm_compute; reflexivity|].
  split; intros H; cbn in H; repeat destruct H as [H|H]; done.
Qed.

Lemma get_graph_without_state_witness :
  run_get_graph example_machine 1 (Some "State Machine") true false stateless
  = (stateless_built,
     Ok (Some "State Machine", None, [CallGenerate])).
Proof.
  refine (eq_trans
            (@get_graph_without_state (list call) recorded recorder
               (engine (list call) PNone) example_machine 1
               (Some "State Machine") true false stateless _ _) _).
  - vm_compute. reflexivity.
  - left. reflexivity.
  - vm_compute. reflexivity.
Defined.

(** C9 as stated fails when the region of interest is asked for: the
    graph is built and cached, but the call raises instead of returning
    it. *)
Lemma roi_without_state_raises :
  lookup_attr stateless 1 (model_attribute example_machine) = None /\
  run_get_graph example_machine 1 None true true stateless
  = (stateless_built, Raise AttributeError) /\
  run_get_graph example_machine 1 None false true stateless
  = (stateless_built, Raise AttributeError).
Proof. repeat split; vm_compute; reflexivity. Qed.

Lemma get_graph_registers_witness :
  is_Some (model_graphs stateless_built !! 1) /\
  run_get_graph example_machine 1 None false false stateless
  = run_get_graph example_machine 1 None true false stateless.
Proof.
  destruct (@get_graph_registers (list call) recorded recorder
              (engine (list call) PNone) example_machine 1 None false false
              stateless) as (_ & Hreg & Hlazy).
  split.
  - apply (Hreg stateless_built (Ok (None, None, [CallGenerate]))).
    vm_compute. reflexivity.
  - apply Hlazy. vm_compute. reflexivity.
Defined.

Lemma add_model_conflict_witness :
  exists w',
    run_add_model example_machine [Model 1] (Some (PStr "A")) own_get_graph
    = (w', Raise AttributeError) /\
    lookup_attr w' 1 "get_graph" = Some (PCallable "user") /\
    model_graphs w' !! 1 = model_graphs own_get_graph_registered !! 1 /\
    (forall obj attr x,
       lookup_attr own_get_graph_registered obj attr = Some x ->
       lookup_attr w' obj attr = Some x) /\
    ([Model 1] = [Model 1] -> w' = own_get_graph_registered).
Proof.
  apply (@add_model_conflict (list call) recorded recorder
           (engine (list call) PNone) example_machine [Model 1]
           (Some (PStr "A")) own_get_graph own_get_graph_registered
           (Model 1) (PCallable "user")).
  - vm_compute. reflexivity.
  - left. reflexivity.
  - vm_compute. reflexivity.
Defined.

(** C7 as stated fails: the registration of the base class runs before
    the check, so the model that is refused has been given its current
    state by then. *)
Lemma refused_model_was_touched :
  run_add_model example_machine [Model 1] (Some (PStr "A")) own_get_graph
  = (own_get_graph_registered, Raise AttributeError) /\
  lookup_attr own_get_graph 1 "state" = None /\
  lookup_attr own_get_graph_registered 1 "state" = Some (PStr "A") /\
  own_get_graph_registered <> own_get_graph.
Proof.
  split; [vm_compute; reflexivity|]. split; [vm_compute; reflexivity|].
  split; [vm_compute; reflexivity|].
  intros Heq.
  assert (lookup_attr own_get_graph_registered 1 "state"
          = lookup_attr own_get_graph 1 "state") as H by (by rewrite Heq).
  vm_compute in H. discriminate H.
Qed.

(** * Further properties *)

(** ** More on the flattener *)

Section FlattenerMore.

Variable sep : string.

Lemma visit_root_transitions markup a1 r :
  visit_scope sep [] markup (Acc [] [] []) = (a1, r) ->
  exists more, acc_transitions a1 = transitions markup ++ more.
Proof.
  unfold visit_scope. intros Hv.
  pose proof (for_transitions_root sep (transitions markup) (Acc [] [] []))
    as Hroot.
  erewrite bind_run in Hv by exact Hroot.
  destruct (tame_for_each _ _ (tame_visit_state sep []) _ _ _ Hv)
    as [[more Hm] _].
  exists more. exact Hm.
Qed.

(** The transitions declared at the root are entered first and as they
    are, whether or not the walk later stops on a missing key. *)
Theorem root_transitions_always_kept markup :
  exists sts more log,
    _get_elements sep markup = (Ok (sts, transitions markup ++ more), log).
Proof.
  destruct (walk_terminates sep markup) as (a & r & Hrun & Htry & Hr).
  assert (exists more, acc_transitions a = transitions markup ++ more)
    as [more Hmore].
  { specialize (Hrun (fuel_for markup) (le_n _)).
    unfold fuel_for in Hrun. cbn [while_queue start acc_queue] in Hrun.
    unfold start in Hrun. cbn [acc_states acc_transitions acc_queue] in Hrun.
    destruct (visit_scope sep [] markup (Acc [] [] [])) as [a1 [[]|e]] eqn:Hv.
    - apply visit_root_transitions in Hv as [m1 Hm1].
      apply while_tame in Hrun as [[m2 Hm2] _].
      exists (m1 ++ m2). by rewrite Hm2, Hm1, app_assoc.
    - injection Hrun as <- <-. by apply visit_root_transitions in Hv. }
  unfold _get_elements. rewrite Htry, Hmore.
  destruct Hr as [-> | ->]; by eexists _, _, _.
Qed.

Lemma enq_item_prefix p ss :
  Forall (fun item : list string * scope => item.1 <> []) (omap (enq_item p) ss).
Proof.
  induction ss as [|st ss IH]; [constructor|].
  cbn. unfold enq_item at 1.
  destruct (children st); [done|]. destruct (name st); [|done].
  constructor; [|done]. cbn. by destruct p.
Qed.

Lemma while_states_nested fuel a a' :
  Forall (fun item : list string * scope => item.1 <> []) (acc_queue a) ->
  while_queue sep fuel a = Some (a', Ok ()) ->
  acc_states a' = acc_states a.
Proof.
  revert a. induction fuel as [|fuel IH]; intros a Hq; [done|].
  cbn [while_queue]. destruct (acc_queue a) as [|[p sc] rest] eqn:Eq.
  { by intros [= <-]. }
  destruct (visit_scope sep p sc _) as [a1 [[]|e]] eqn:Hv; [|done].
  apply visit_scope_ok in Hv as (emitted & blocks & _ & _ & ->).
  intros Hrun. apply IH in Hrun.
  - rewrite Hrun. cbn. inversion Hq as [|? ? Hp _]; subst. cbn in Hp.
    destruct p; [done|]. by rewrite app_nil_r.
  - cbn. inversion Hq; subst. apply Forall_app. split; [done|].
    apply enq_item_prefix.
Qed.

(** In a run that logged nothing, the states returned are the states of
    the top level of the markup, in order and nothing else: the states of
    nested scopes are walked for their transitions and anchors but are not
    listed. *)
Theorem only_top_level_states markup sts trs :
  _get_elements sep markup = (Ok (sts, trs), []) ->
  sts = children markup ++ states markup.
Proof.
  intros Hrun. apply get_elements_ok_run in Hrun as (a & Hrun & -> & _).
  unfold fuel_for in Hrun. cbn [while_queue start acc_queue] in Hrun.
  unfold start in Hrun. cbn [acc_states acc_transitions acc_queue] in Hrun.
  destruct (visit_scope sep [] markup (Acc [] [] [])) as [a1 [[]|e]] eqn:Hv;
    [|done].
  apply visit_scope_ok in Hv as (emitted & blocks & _ & _ & ->).
  apply while_states_nested in Hrun; [by rewrite Hrun|].
  cbn. apply enq_item_prefix.
Qed.

Lemma for_states_flat ss a :
  Forall (fun st => single_initial st = false /\ children st = []) ss ->
  for_each ss (visit_state sep []) a
  = (Acc (acc_states a ++ ss) (acc_transitions a) (acc_queue a), Ok ()).
Proof.
  intros Hflat. revert a. induction Hflat as [|st ss [Hini Hch] _ IH]; intros a.
  - rewrite for_each_nil, app_nil_r. by destruct a.
  - rewrite for_each_cons.
    assert (visit_state sep [] st a
            = (Acc (acc_states a ++ [st]) (acc_transitions a) (acc_queue a),
               Ok ())) as Hst.
    { unfold visit_state. erewrite bind_run by reflexivity.
      unfold single_initial in Hini. rewrite Hch.
      by destruct (initial st) as [[| |]|]. }
    erewrite bind_run by exact Hst. rewrite IH. cbn.
    by rewrite <- app_assoc.
Qed.

(** A flat machine cannot make the flattener fail: when no state of the
    top level has a single initial or children, the result is exactly the
    states and the declared transitions, and nothing is logged, even if
    states or transitions lack their name or source. *)
Theorem flat_markup_elements markup :
  Forall (fun st => single_initial st = false /\ children st = [])
    (children markup ++ states markup) ->
  _get_elements sep markup
  = (Ok (children markup ++ states markup, transitions markup), []).
Proof.
  intros Hflat. unfold _get_elements, try_block, fuel_for.
  rewrite scope_size_children.
  cbn [while_queue start acc_queue acc_states acc_transitions].
  unfold visit_scope.
  erewrite bind_run by apply for_transitions_root.
  rewrite (for_states_flat _ _ Hflat). done.
Qed.

End FlattenerMore.

Lemma flat_markup_elements_witness :
  _get_elements "_" multi_edge_markup
  = (Ok (children multi_edge_markup ++ states multi_edge_markup,
         transitions multi_edge_markup), []).
Proof.
  apply (flat_markup_elements "_" multi_edge_markup).
  repeat constructor.
Defined.

Lemma only_top_level_states_witness :
  [plain "A"; plain "B"; state_C; plain "D"]
  = children nested_markup ++ states nested_markup.
Proof.
  apply (only_top_level_states "_" nested_markup
           [plain "A"; plain "B"; state_C; plain "D"] nested_transitions).
  vm_compute. reflexivity.
Defined.

Import Wellformed.

Section FlattenerWellformed.

Variable sep : string.

Lemma visit_state_named p st a :
  named_if_needed st = true ->
  exists a', visit_state sep p st a = (a', Ok ()).
Proof.
  unfold named_if_needed, visit_state, single_initial. intros Hn.
  destruct (name st) as [n|].
  - destruct p; (erewrite bind_run by reflexivity);
      destruct (initial st) as [[l|ini|ini]|];
      (erewrite bind_run by reflexivity);
      destruct (children st); by eexists.
  - destruct (initial st) as [[l|ini|ini]|]; try done;
      destruct (children st); try done;
      destruct p; by eexists.
Qed.

Lemma for_states_named p ss a :
  Forall (fun st => named_if_needed st = true) ss ->
  exists a', for_each ss (visit_state sep p) a = (a', Ok ()).
Proof.
  intros Hn. revert a. induction Hn as [|st ss Hst _ IH]; intros a.
  - by eexists.
  - rewrite for_each_cons.
    destruct (visit_state_named p st a Hst) as [a1 Ha1].
    erewrite bind_run by exact Ha1. apply IH.
Qed.

Lemma for_transitions_sourced p ts a :
  Forall (fun t => Labels.has_key (source t) = true) ts ->
  exists a',
    for_each ts (fun transition =>
      tran ← scoped_transition sep p transition; append_transition tran) a
    = (a', Ok ()).
Proof.
  intros Hs. revert a. induction Hs as [|t ts Ht _ IH]; intros a.
  - by eexists.
  - rewrite for_each_cons.
    assert (exists t', scoped_transition sep p t a = (a, Ok t')) as [t' Ht'].
    { unfold scoped_transition. destruct p; [by eexists|].
      destruct (source t); [|done]. cbn. destruct (dest t); by eexists. }
    erewrite bind_run by (erewrite bind_run by exact Ht'; reflexivity).
    apply IH.
Qed.

Lemma well_keyed_unfold nested sc :
  well_keyed nested sc
  = (negb nested
     || forallb (fun t => Labels.has_key (source t)) (transitions sc))
    && forallb (fun s => named_if_needed s
                         && match children s with
                            | [] => true
                            | _ :: _ => well_keyed true s
                            end) (children sc ++ states sc).
Proof. destruct sc. cbn. by rewrite forallb_app, andb_assoc. Qed.

Lemma visit_scope_well p sc a :
  item_ok (p, sc) ->
  exists a', visit_scope sep p sc a = (a', Ok ()).
Proof.
  unfold item_ok. cbn [fst snd]. rewrite well_keyed_unfold.
  intros [Htr Hst]%andb_prop. unfold visit_scope.
  assert (exists a1,
    for_each (transitions sc) (fun transition =>
      tran ← scoped_transition sep p transition; append_transition tran) a
    = (a1, Ok ())) as [a1 Ha1].
  { destruct p as [|x p].
    - eexists. apply for_transitions_root.
    - apply for_transitions_sourced. cbn in Htr.
      apply Forall_forall. intros t Hin.
      rewrite forallb_forall in Htr. apply Htr. by apply list_elem_of_In. }
  erewrite bind_run by exact Ha1.
  apply for_states_named. apply Forall_forall. intros st Hin.
  rewrite forallb_forall in Hst.
  by apply list_elem_of_In, Hst, andb_prop in Hin as [? _].
Qed.

Lemma enq_well p b sc :
  well_keyed b sc = true ->
  Forall item_ok (omap (enq_item p) (children sc ++ states sc)).
Proof.
  rewrite well_keyed_unfold. intros [_ Hst]%andb_prop.
  rewrite forallb_forall in Hst.
  apply Forall_forall. intros [q st'] Hin.
  apply list_elem_of_omap in Hin as (st & Hst_in & Hitem).
  apply list_elem_of_In, Hst, andb_prop in Hst_in as [_ Hrec].
  unfold enq_item in Hitem. destruct (children st) eqn:Hch; [done|].
  destruct (name st); [|done]. injection Hitem as <- <-.
  unfold item_ok. cbn [fst snd]. by destruct p.
Qed.

Lemma while_well fuel a a' r :
  Forall item_ok (acc_queue a) ->
  while_queue sep fuel a = Some (a', r) ->
  r = Ok ().
Proof.
  revert a. induction fuel as [|fuel IH]; intros a Hq; [done|].
  cbn [while_queue]. destruct (acc_queue a) as [|[p sc] rest] eqn:Eq.
  { by intros [= <- <-]. }
  inversion Hq as [|? ? Hhead Hrest]; subst.
  destruct (visit_scope_well p sc
              (Acc (acc_states a) (acc_transitions a) rest) Hhead)
    as [a1 Ha1].
  rewrite Ha1. intros Hrun. apply (IH a1); [|done].
  apply visit_scope_ok in Ha1 as (emitted & blocks & _ & _ & ->).
  cbn. apply Forall_app. split; [done|].
  unfold item_ok in Hhead. by eapply enq_well.
Qed.

(** A markup that has every key the walk reads (a source on the
    transitions of nested scopes, a name on the states that have a single
    initial or children) is flattened without anything being logged. *)
Theorem well_keyed_never_logs markup :
  well_keyed false markup = true ->
  exists sts trs, _get_elements sep markup = (Ok (sts, trs), []).
Proof.
  intros Hw.
  destruct (walk_terminates sep markup) as (a & r & Hrun & Htry & _).
  specialize (Hrun _ (le_n _)).
  apply while_well in Hrun as ->; [|by repeat constructor].
  unfold _get_elements. rewrite Htry. by eexists _, _.
Qed.

Lemma descends_snoc p0 sc0 p sc st n :
  descends p0 sc0 p sc ->
  In st (children sc ++ states sc) -> children st <> [] ->
  name st = Some n ->
  descends p0 sc0 (p ++ [n]) st.
Proof.
  induction 1 as [p sc|p0 sc0 st0 n0 p sc Hin0 Hch0 Hn0 _ IH];
    intros Hin Hch Hn.
  - eapply descends_child; [done..|]. apply descends_here.
  - eapply descends_child; [done..|]. by apply IH.
Qed.

Lemma Forall2_In_r {X Y} (P : X -> Y -> Prop) l k y :
  Forall2 P l k -> In y k -> exists x, In x l /\ P x y.
Proof.
  induction 1 as [|x' y' l k Hxy _ IH]; [intros []|].
  intros [<-|Hin]; [exists x'; cbn; eauto|].
  destruct (IH Hin) as (x & Hx & HP). exists x. cbn. eauto.
Qed.

Lemma slice_stems markup p sc slice :
  reached markup p sc -> scope_slice sep p sc slice ->
  Forall (stems_from sep markup) slice.
Proof.
  intros Hr (emitted & blocks & -> & He & Hb).
  apply Forall_forall. intros t' Hin.
  apply list_elem_of_In, in_app_or in Hin as [Hin|Hin].
  - destruct (Forall2_In_r _ _ _ _ He Hin) as (t & Ht & Hem).
    exists p, sc. split; [done|]. left. by exists t.
  - apply in_concat in Hin as (block & Hblock & Hin).
    destruct (Forall2_In_r _ _ _ _ Hb Hblock) as (st & Hst & Ha).
    exists p, sc. split; [done|]. right. exists st. split; [done|].
    unfold anchors_of in *.
    destruct (initial st) as [[l|ini|ini]|];
      try (subst block; by destruct Hin);
      destruct Ha as (n & Hn & ->); destruct Hin as [<-|[]]; eauto.
Qed.

Lemma while_sound markup fuel a a' :
  Forall (fun item : list string * scope => reached markup item.1 item.2)
    (acc_queue a) ->
  while_queue sep fuel a = Some (a', Ok ()) ->
  exists more,
    acc_transitions a' = acc_transitions a ++ more /\
    Forall (stems_from sep markup) more.
Proof.
  revert a. induction fuel as [|fuel IH]; intros a Hq; [done|].
  cbn [while_queue]. destruct (acc_queue a) as [|[p sc] rest] eqn:Eq.
  { intros [= <-]. exists []. by rewrite app_nil_r. }
  inversion Hq as [|? ? Hhead Hrest]; subst. cbn in Hhead.
  destruct (visit_scope sep p sc _) as [a1 [[]|e]] eqn:Hv; [|done].
  apply visit_scope_ok in Hv as (emitted & blocks & He & Hb & ->).
  intros Hrun. apply IH in Hrun as (more & -> & Hmore).
  - cbn. exists ((emitted ++ concat blocks) ++ more).
    split; [by rewrite <- !app_assoc|].
    apply Forall_app. split; [|done].
    apply (slice_stems markup p sc); [done|]. by exists emitted, blocks.
  - cbn. apply Forall_app. split; [done|].
    apply Forall_forall. intros [q st'] Hin.
    apply list_elem_of_omap in Hin as (st & Hst_in & Hitem).
    unfold enq_item in Hitem. destruct (children st) eqn:Hch; [done|].
    destruct (name st) as [n|] eqn:Hn; [|done]. injection Hitem as <- <-.
    cbn. apply (descends_snoc _ _ _ sc); [done| |by rewrite Hch|done].
    by apply list_elem_of_In.
Qed.

(** In a run that logged nothing, the flattened list holds nothing but
    the entries of the transitions declared in the scopes the walk reaches
    and the anchors of the states of those scopes. *)
Theorem no_invented_transitions markup sts trs :
  _get_elements sep markup = (Ok (sts, trs), []) ->
  Forall (stems_from sep markup) trs.
Proof.
  intros Hrun. apply get_elements_ok_run in Hrun as (a & Hrun & _ & ->).
  apply (while_sound markup) in Hrun as (more & -> & Hmore); [done|].
  repeat constructor.
Qed.

End FlattenerWellformed.

Lemma well_keyed_never_logs_witness :
  exists sts trs, _get_elements "_" nested_markup = (Ok (sts, trs), []).
Proof.
  apply (well_keyed_never_logs "_" nested_markup). reflexivity.
Defined.

Lemma no_invented_transitions_witness :
  Forall (stems_from "_" nested_markup) nested_transitions.
Proof.
  apply (no_invented_transitions "_" nested_markup
           [plain "A"; plain "B"; state_C; plain "D"] nested_transitions).
  vm_compute. reflexivity.
Defined.

Example sourceless_markup_elements :
  _get_elements "_" sourceless_markup
  = (Ok (states sourceless_markup, []),
     [(ERROR, "Graph creation incomplete!")]).
Proof. vm_compute. reflexivity. Qed.

(** ** More on edge labels *)

(** The label cannot be computed exactly when the transition has no
    trigger, a label override notwithstanding. *)
Theorem transition_label_raises_iff show tran :
  (_transition_label show tran = Raise KeyError <-> trigger tran = None) /\
  (trigger tran <> None -> exists l, _transition_label show tran = Ok l).
Proof.
  unfold _transition_label. destruct (trigger tran) as [trg|].
  - split; [split; intros [=]|]. intros _. by eexists.
  - split; [done|]. by intros [].
Qed.

Lemma transition_label_raises_iff_witness :
  exists l,
    _transition_label true
      (Transition (Some "go") None None None None (Some "override")) = Ok l.
Proof.
  apply (transition_label_raises_iff true
           (Transition (Some "go") None None None None (Some "override"))).
  discriminate.
Defined.

(** Flattening does not change edge labels: the entry of a declared
    transition has the label of the declaration whatever the prefix, and
    an anchor has the empty label. *)
Theorem flattening_keeps_labels sep p t t' show :
  emitted_for sep p t t' ->
  _transition_label show t' = _transition_label show t /\
  forall n ini, _transition_label show (anchor sep p n ini) = Ok "".
Proof.
  intros Hem. split; [|by destruct show].
  unfold emitted_for in Hem. destruct p as [|x p]; [by subst|].
  destruct Hem as (src & _ & ->). unfold _transition_label. cbn.
  by destruct (dest t).
Qed.

Lemma flattening_keeps_labels_witness :
  _transition_label true
    (Transition (Some "tick") (Some "C_3") None (Some ["ready"]) None None)
  = _transition_label true
      (Transition (Some "tick") (Some "3") None (Some ["ready"]) None None) /\
  forall n ini, _transition_label true (anchor "_" ["C"] n ini) = Ok "".
Proof.
  apply (flattening_keeps_labels "_" ["C"]
           (Transition (Some "tick") (Some "3") None (Some ["ready"]) None None)).
  exists "3". split; reflexivity.
Defined.

(** A [conditions] or [unless] entry that is there but empty still
    counts as carried: with conditions shown, an empty pair of brackets is
    appended. *)
Theorem empty_guards_give_empty_brackets tran trg :
  trigger tran = Some trg ->
  (conditions tran = Some [] /\ default [] (unless tran) = []) \/
  (unless tran = Some [] /\ default [] (conditions tran) = []) ->
  _transition_label true tran
  = Ok (base_label tran trg +:+ internal_suffix tran +:+ " []") /\
  _transition_label false tran
  = Ok (base_label tran trg +:+ internal_suffix tran).
Proof.
  intros Htrg Hempty.
  unfold _transition_label, base_label, internal_suffix. rewrite Htrg.
  assert (has_key (conditions tran) || has_key (unless tran) = true) as Hk.
  { destruct Hempty as [[-> _]|[-> _]]; [done|]. apply orb_true_r. }
  assert (default [] (conditions tran)
          ++ map (fun u => "!" +:+ u) (default [] (unless tran)) = []) as Hl.
  { destruct Hempty as [[-> ->]|[-> ->]]; done. }
  cbn [andb]. rewrite Hk, Hl.
  destruct (label tran), (dest tran); cbn [default has_key join];
    split; f_equal; rewrite ?string_app_nil_r, ?string_app_assoc; reflexivity.
Qed.

Lemma empty_guards_give_empty_brackets_witness :
  _transition_label true
    (Transition (Some "go") (Some "A") (Some "B") (Some []) None None)
  = Ok ("go" +:+ "" +:+ " []") /\
  _transition_label false
    (Transition (Some "go") (Some "A") (Some "B") (Some []) None None)
  = Ok ("go" +:+ "").
Proof.
  apply (empty_guards_give_empty_brackets
           (Transition (Some "go") (Some "A") (Some "B") (Some []) None None)
           "go").
  - reflexivity.
  - left. split; reflexivity.
Defined.

(** ** _flatten *)

Import Sequences.

Lemma pyval_nested_ind (P : pyval -> Prop) :
  P PNone ->
  (forall s, P (PStr s)) ->
  (forall n, P (PNamed n)) ->
  (forall kind items, Forall P items -> P (PSeq kind items)) ->
  (forall tag, P (PCallable tag)) ->
  (forall m, P (PGetGraph m)) ->
  forall v, P v.
Proof.
  intros HNone HStr HNamed HSeq HCall HGet.
  fix IH 1. intros [|s|n|kind items|tag|m].
  - exact HNone.
  - apply HStr.
  - apply HNamed.
  - apply HSeq. induction items as [|v items IHitems].
    + constructor.
    + constructor; [apply IH | exact IHitems].
  - apply HCall.
  - apply HGet.
Qed.

Lemma flatten_elem_no_sequence v :
  Forall (fun x => is_sequence x = false) (flatten_elem v).
Proof.
  induction v as [|s|n|kind items IH|tag|m] using pyval_nested_ind;
    try (by repeat constructor).
  cbn. induction IH as [|v items Hv _ IHitems]; [constructor|].
  cbn. apply Forall_app. by split.
Qed.

Lemma flatten_leaves item :
  Forall (fun x => is_sequence x = false) (_flatten item).
Proof.
  unfold _flatten. induction item as [|v item IH]; [constructor|].
  cbn. apply Forall_app. split; [apply flatten_elem_no_sequence | done].
Qed.

(** Whatever the nesting, [_flatten] yields no list, tuple or set. *)
Theorem flatten_yields_no_sequence item :
  forall x, In x (_flatten item) -> is_sequence x = false.
Proof.
  intros x Hin. pose proof (flatten_leaves item) as Hl.
  rewrite Forall_forall in Hl. by apply Hl, list_elem_of_In.
Qed.

Lemma flatten_yields_no_sequence_witness :
  is_sequence (PStr "C") = false.
Proof.
  apply (flatten_yields_no_sequence deep_state (PStr "C")).
  cbn. tauto.
Defined.

Lemma flatten_flat item :
  Forall (fun x => is_sequence x = false) item -> _flatten item = item.
Proof.
  unfold _flatten. induction 1 as [|v item Hv _ IH]; [done|].
  cbn. rewrite IH. by destruct v.
Qed.

(** [_flatten] leaves a flat list as it is, so flattening twice is
    flattening once; and a nested sequence can be replaced by its items in
    place, whatever its kind. *)
Theorem flatten_idempotent item :
  _flatten (_flatten item) = _flatten item /\
  (Forall (fun x => is_sequence x = false) item -> _flatten item = item) /\
  (forall before kind items after,
     item = before ++ PSeq kind items :: after ->
     _flatten item = _flatten (before ++ items ++ after)).
Proof.
  split; [|split].
  - apply flatten_flat, flatten_leaves.
  - apply flatten_flat.
  - intros before kind items after ->. unfold _flatten.
    rewrite !flat_map_app. cbn. by rewrite app_assoc.
Qed.

Lemma flatten_idempotent_witness :
  _flatten (_flatten deep_state) = _flatten deep_state /\
  _flatten deep_state
  = _flatten ([PStr "A"]
              ++ [PStr "B"; PSeq ASet [PStr "C"; PSeq AList []]; PStr "D"]
              ++ [PSeq AList [PSeq AList [PStr "E"]]]).
Proof.
  destruct (flatten_idempotent deep_state) as (Hidem & _ & Hsplice).
  split; [exact Hidem|].
  apply (Hsplice [PStr "A"] ATuple
           [PStr "B"; PSeq ASet [PStr "C"; PSeq AList []]; PStr "D"]
           [PSeq AList [PSeq AList [PStr "E"]]]).
  reflexivity.
Defined.

Example deep_state_flattened :
  _flatten deep_state = [PStr "A"; PStr "B"; PStr "C"; PStr "D"; PStr "E"].
Proof. reflexivity. Qed.

(** ** State labels *)

Import StateLabels.

(** With its name, and its [on_timeout] when it has a timeout, a state
    gets as label its label override or else its name, followed, when the
    state attributes are shown, by its tags, its enter callbacks, its exit
    callbacks and its timeout, in that order, each only when the key is
    there; when the attributes are hidden nothing is appended. *)
Theorem state_label_parts show state n :
  sd_name state = Some n ->
  (sd_timeout state <> None -> sd_on_timeout state <> None) ->
  _convert_state_attributes show state
  = Ok (default n (sd_label state)
        +:+ (if show
             then tags_part state +:+ enter_part state +:+ exit_part state
                  +:+ timeout_part state
             else "")).
Proof.
  intros Hn Hto. unfold _convert_state_attributes. rewrite Hn.
  destruct show; [|by rewrite string_app_nil_r].
  unfold tags_part, enter_part, exit_part, timeout_part.
  destruct (sd_timeout state) as [timeout|].
  - destruct (sd_on_timeout state) as [on_timeout|]; [|by destruct Hto].
    destruct (sd_tags state), (sd_on_enter state), (sd_on_exit state);
      f_equal; rewrite ?string_app_assoc; reflexivity.
  - destruct (sd_tags state), (sd_on_enter state), (sd_on_exit state);
      f_equal; rewrite ?string_app_nil_r, ?string_app_assoc;
      rewrite ?string_app_nil_r; reflexivity.
Qed.

Lemma state_label_parts_witness :
  _convert_state_attributes true tagged_state
  = Ok ("A" +:+ tags_part tagged_state +:+ enter_part tagged_state
        +:+ exit_part tagged_state +:+ timeout_part tagged_state).
Proof.
  apply (state_label_parts true tagged_state "A"); [reflexivity|].
  intros _. discriminate.
Defined.

Example tagged_state_label :
  _convert_state_attributes true tagged_state
  = Ok "A [new, polling]\l- enter:\l  + say_hello\l- exit:\l  + say_goodbye\l- timeout(5s) -> (do_something)".
Proof. vm_compute. reflexivity. Qed.

(** The label of a state cannot be computed exactly in two cases: the
    state has no name (a label override does not help), or the attributes
    are shown and the state has a timeout but no [on_timeout]. With the
    attributes hidden a missing [on_timeout] does no harm. *)
Theorem state_label_raises_iff show state :
  _convert_state_attributes show state = Raise KeyError <->
  sd_name state = None \/
  (show = true /\ sd_timeout state <> None /\ sd_on_timeout state = None).
Proof.
  unfold _convert_state_attributes.
  destruct (sd_name state) as [n|]; [|by split; [left|]].
  destruct show.
  - destruct (sd_timeout state) as [timeout|].
    + destruct (sd_on_timeout state) as [on_timeout|]; split;
        try done; try (intros [[=]|(_ & _ & [=])]).
      intros _. right. by repeat split.
    + split; [done|]. by intros [[=]|(_ & [] & _)].
  - split; [done|]. by intros [[=]|([=] & _)].
Qed.

Lemma state_label_raises_iff_witness :
  _convert_state_attributes true
    (StateDict (Some "shown") (Some "A") None None None (Some "5") None)
  = Raise KeyError.
Proof.
  apply (state_label_raises_iff true
           (StateDict (Some "shown") (Some "A") None None None (Some "5") None)).
  right. repeat split; [discriminate].
Defined.

(** ** Rebuilding the graphs *)

Import Registry.

Section RegistryFacts.

Context {G A : Type} `{!GraphBackend G A} `{!Core G}.

Variable models_of : machine -> list nat.
Variable call_other : pyval -> R (world G) unit.

Lemma style_loop_exact (self : machine) model states (w : world G) :
  for_each states (fun state =>
    node ← (if has_name state then machine_dest self else mret state);
    on_graph model (set_node_style node "active")) w
  = (World (alter (style_active (styled_prefix (dest_attr self) states).1)
              model (model_graphs w)) (objects w) (logged w),
     if (styled_prefix (dest_attr self) states).2 then Ok ()
     else Raise AttributeError).
Proof.
  revert w. induction states as [|state states IH]; intros w.
  - rewrite for_each_nil. cbn. rewrite alter_id by done. by destruct w.
  - rewrite for_each_cons. cbn [styled_prefix].
    destruct (has_name state).
    + destruct (dest_attr self) as [d|] eqn:Hd; try rewrite Hd in IH.
      * erewrite bind_run
          by (unfold machine_dest; rewrite Hd; reflexivity).
        rewrite IH.
        destruct (styled_prefix (Some d) states) as [nodes completed].
        cbn [fst snd model_graphs objects logged].
        by rewrite alter_alter_eq.
      * erewrite bind_raise
          by (unfold machine_dest; rewrite Hd; reflexivity).
        cbn. rewrite alter_id by done. by destruct w.
    + erewrite bind_run by reflexivity. rewrite IH.
      destruct (styled_prefix (dest_attr self) states) as [nodes completed].
      cbn [fst snd model_graphs objects logged].
      by rewrite alter_alter_eq.
Qed.

Lemma build_graph_exact (self : machine) model (w : world G) :
  build_graph self model w = (rebuilt self model w, Ok ()).
Proof.
  unfold build_graph, rebuilt, fresh_graph, fresh_log.
  erewrite bind_run by reflexivity.
  unfold try_except, mbind at 1, R_bind at 1, getattr at 1, lookup_attr.
  cbn [model_graphs objects logged].
  destruct (objects w !! model ≫= _) as [v|] eqn:Hv; [|done].
  rewrite style_loop_exact. cbn [model_graphs objects logged].
  rewrite alter_insert_eq.
  destruct (styled_prefix _ _) as [nodes [|]]; cbn [fst snd]; [|done].
  by rewrite app_nil_r.
Qed.

(** [_get_graph] in closed form. *)
Lemma get_graph_exact (self : machine) model title force_new show_roi
    (w : world G) :
  _get_graph self model title force_new show_roi w
  = match (if force_new then None else model_graphs w !! model) with
    | Some g => render self model title show_roi g w
    | None =>
        render self model title show_roi
          (fresh_graph self (lookup_attr w model (model_attribute self)))
          (rebuilt self model w)
    end.
Proof.
  unfold _get_graph.
  destruct force_new; [|destruct (model_graphs w !! model) as [g|] eqn:Hg].
  - by rewrite (get_graph_rebuild _ _ _ true _ _ _ _
                  (build_graph_exact self model w)) by (auto; lia).
  - by rewrite (get_graph_cached 1 _ _ _ _ _ _ Hg).
  - by rewrite (get_graph_rebuild _ _ _ false _ _ _ _
                  (build_graph_exact self model w)) by (auto; lia).
Qed.

Lemma styled_prefix_plain dest states :
  Forall (fun state => has_name state = false) states ->
  styled_prefix dest states = (states, true).
Proof.
  induction 1 as [|state states Hs _ IH]; [done|].
  cbn. by rewrite Hs, IH.
Qed.

Lemma styled_prefix_stops plain named rest :
  Forall (fun state => has_name state = false) plain ->
  has_name named = true ->
  styled_prefix None (plain ++ named :: rest) = (plain, false).
Proof.
  intros Hp Hn. induction Hp as [|state plain Hs _ IH]; cbn.
  - by rewrite Hn.
  - by rewrite Hs, IH.
Qed.

(** A forced rebuild starts from scratch: the graph it registers for the
    model and what it returns or raises depend on the machine and on the
    attributes of the objects only, not on the graph registered before nor
    on any other content of the registry. *)
Theorem forced_rebuild_forgets (self : machine) model title show_roi
    (w w2 : world G) :
  objects w2 = objects w ->
  let after := _get_graph self model title true show_roi w in
  let after2 := _get_graph self model title true show_roi w2 in
  model_graphs after.1 !! model
  = Some (fresh_graph self (lookup_attr w model (model_attribute self))) /\
  model_graphs after2.1 !! model = model_graphs after.1 !! model /\
  after2.2 = after.2.
Proof.
  intros Hobj after after2. subst after after2.
  rewrite !get_graph_exact, !render_run. cbn [fst snd].
  unfold rebuilt, lookup_attr. cbn [model_graphs objects]. rewrite Hobj.
  by rewrite !lookup_insert_eq.
Qed.

(** When the elements of the flattened current state are all plain
    values, a forced rebuild registers the generated graph with the active
    style set on each of them in order, logs nothing, and returns the
    artifact of that graph. *)
Theorem initial_marks (self : machine) model title (w : world G) v :
  lookup_attr w model (model_attribute self) = Some v ->
  Forall (fun state => has_name state = false) (_flatten (listify v)) ->
  let g := foldl (fun g state => set_node_style state "active" g)
             (generate self) (_flatten (listify v)) in
  _get_graph self model title true false w
  = (World (<[model := g]> (model_graphs w)) (objects w) (logged w),
     Ok (get_graph title None g)).
Proof.
  intros Hv Hplain g. rewrite get_graph_exact, render_run.
  unfold rebuilt, fresh_graph, fresh_log. rewrite Hv.
  rewrite (styled_prefix_plain _ _ Hplain). cbn [fst snd].
  by rewrite app_nil_r.
Qed.

(** The machine has no [dest] attribute, which line 194 reads for an
    element that exposes [name]: a forced rebuild then styles the plain
    elements that come before the first such element and no other, logs
    that the active state could not be set, and still returns the
    artifact. *)
Theorem initial_marks_stop_at_named (self : machine) model title (w : world G)
    v plain named rest :
  dest_attr self = None ->
  lookup_attr w model (model_attribute self) = Some v ->
  _flatten (listify v) = plain ++ named :: rest ->
  Forall (fun state => has_name state = false) plain ->
  has_name named = true ->
  let g := foldl (fun g state => set_node_style state "active" g)
             (generate self) plain in
  _get_graph self model title true false w
  = (World (<[model := g]> (model_graphs w)) (objects w)
       (logged w ++ [(INFO, "Could not set active state of diagram")]),
     Ok (get_graph title None g)).
Proof.
  intros Hd Hv Hflat Hplain Hnamed g. rewrite get_graph_exact, render_run.
  unfold rebuilt, fresh_graph, fresh_log. rewrite Hv, Hd, Hflat.
  by rewrite (styled_prefix_stops _ _ _ Hplain Hnamed).
Qed.

(** A query that finds a graph in the registry and does not force a new
    one changes nothing, neither the registry (the styling of the graph is
    kept) nor the objects nor the log; it returns the artifact of the
    cached graph, for the region of interest of the current state when
    asked. *)
Theorem cached_query_is_pure (self : machine) model title show_roi
    (w : world G) g :
  model_graphs w !! model = Some g ->
  exists r,
    _get_graph self model title false show_roi w = (w, r) /\
    (show_roi = false -> r = Ok (get_graph title None g)) /\
    (forall v, show_roi = true ->
       lookup_attr w model (model_attribute self) = Some v ->
       r = Ok (get_graph title (Some v) g)).
Proof.
  intros Hg. rewrite get_graph_exact, Hg, render_run.
  eexists. split; [reflexivity|]. split.
  - by intros ->.
  - intros v -> Hv. by rewrite Hv.
Qed.

(** [_get_graph] for a model leaves the attributes of all objects and the
    graphs of the other models as they are. *)
Theorem get_graph_touches_one_model (self : machine) model title force_new
    show_roi (w w' : world G) r :
  _get_graph self model title force_new show_roi w = (w', r) ->
  objects w' = objects w /\
  forall other, other <> model ->
    model_graphs w' !! other = model_graphs w !! other.
Proof.
  rewrite get_graph_exact.
  destruct (if force_new then None else model_graphs w !! model);
    rewrite render_run; intros [= <- _]; [done|].
  split; [done|]. intros other Hne. cbn. by apply lookup_insert_ne.
Qed.

Lemma fresh_log_info (self : machine) current :
  Forall (fun rec : log_record => rec.1 = INFO) (fresh_log self current).
Proof.
  unfold fresh_log. destruct current as [v|]; [|by repeat constructor].
  destruct (styled_prefix _ _).2; by repeat constructor.
Qed.

Lemma setstate_step (self : machine) model (w1 : world G) :
  try_except (_ ← _get_graph self model None false false; mret ())
    AttributeError
    (log WARNING "Graph for model could not be initialized after pickling: %s")
    w1
  = (match model_graphs w1 !! model with
     | Some _ => w1
     | None => rebuilt self model w1
     end, Ok ()).
Proof.
  unfold try_except, mbind, R_bind. rewrite get_graph_exact.
  destruct (model_graphs w1 !! model); by rewrite render_run.
Qed.

Lemma setstate_loop (self : machine) models (w1 : world G) :
  exists w' lg,
    for_each models (fun model =>
      try_except (_ ← _get_graph self model None false false; mret ())
        AttributeError
        (log WARNING
           "Graph for model could not be initialized after pickling: %s")) w1
    = (w', Ok ()) /\
    objects w' = objects w1 /\
    logged w' = logged w1 ++ lg /\
    Forall (fun rec : log_record => rec.1 = INFO) lg /\
    forall m,
      model_graphs w' !! m
      = match model_graphs w1 !! m with
        | Some g => Some g
        | None =>
            if decide (m ∈ models)
            then Some (fresh_graph self
                         (lookup_attr w1 m (model_attribute self)))
            else None
        end.
Proof.
  revert w1. induction models as [|m0 models IH]; intros w1.
  - exists w1, []. rewrite app_nil_r. repeat split; [constructor|].
    intros m. destruct (model_graphs w1 !! m); [done|].
    by rewrite decide_False by apply not_elem_of_nil.
  - rewrite for_each_cons. erewrite bind_run by apply setstate_step.
    destruct (model_graphs w1 !! m0) as [g0|] eqn:Hg0.
    + destruct (IH w1) as (w' & lg & -> & Hobj & Hlog & Hinfo & Hgraphs).
      exists w', lg. repeat split; try done.
      intros m. rewrite Hgraphs.
      destruct (model_graphs w1 !! m) eqn:Hm; [done|].
      assert (m <> m0) by congruence.
      destruct (decide (m ∈ models)) as [Hin|Hin].
      * by rewrite decide_True by (by right).
      * rewrite decide_False; [done|]. by intros [?|?]%elem_of_cons.
    + destruct (IH (rebuilt self m0 w1))
        as (w' & lg & -> & Hobj & Hlog & Hinfo & Hgraphs).
      eexists w', (_ ++ lg). split; [reflexivity|].
      split; [done|]. split; [by rewrite Hlog; cbn; rewrite <- app_assoc|].
      split; [apply Forall_app; split; [apply fresh_log_info | done]|].
      intros m. rewrite Hgraphs. cbn [rebuilt model_graphs].
      destruct (decide (m = m0)) as [->|Hne].
      * rewrite lookup_insert_eq, Hg0.
        by rewrite decide_True by (by left).
      * rewrite lookup_insert_ne by done.
        destruct (model_graphs w1 !! m); [done|].
        destruct (decide (m ∈ models)) as [Hin|Hin].
        -- by rewrite decide_True by (by right).
        -- rewrite decide_False; [done|]. by intros [?|?]%elem_of_cons.
Qed.

(** [__setstate__] returns for every list of models; afterwards the
    registry holds exactly one graph per model of the list, each built
    from scratch for the current state of its model, the objects are as
    they were, and the only records logged are at level INFO: the warning
    of the handler is never logged. *)
Theorem setstate_rebuilds_all (self : machine) models (w : world G) :
  exists w' lg,
    __setstate__ self models w = (w', Ok ()) /\
    objects w' = objects w /\
    logged w' = logged w ++ lg /\
    Forall (fun rec : log_record => rec.1 = INFO) lg /\
    forall m,
      model_graphs w' !! m
      = if decide (m ∈ models)
        then Some (fresh_graph self (lookup_attr w m (model_attribute self)))
        else None.
Proof.
  unfold __setstate__. erewrite bind_run by reflexivity.
  destruct (setstate_loop self models (World ∅ (objects w) (logged w)))
    as (w' & lg & Hrun & Hobj & Hlog & Hinfo & Hgraphs).
  exists w', lg. split; [exact Hrun|]. split; [exact Hobj|].
  split; [exact Hlog|]. split; [exact Hinfo|].
  intros m. rewrite Hgraphs. cbn [model_graphs]. by rewrite lookup_empty.
Qed.

Lemma regenerate_step (self : machine) model (w1 : world G) :
  lookup_attr w1 model "get_graph" = Some (PGetGraph model) ->
  call_get_graph call_other self model w1 = (rebuilt self model w1, Ok ()).
Proof.
  intros Hbound. unfold call_get_graph.
  erewrite bind_run by (unfold getattr; rewrite Hbound; reflexivity).
  unfold mbind, R_bind. rewrite get_graph_exact. by rewrite render_run.
Qed.

Lemma regenerate_loop (self : machine) models (w1 : world G) :
  (forall m, m ∈ models ->
     lookup_attr w1 m "get_graph" = Some (PGetGraph m)) ->
  exists w' lg,
    for_each models (call_get_graph call_other self) w1 = (w', Ok ()) /\
    objects w' = objects w1 /\
    logged w' = logged w1 ++ lg /\
    Forall (fun rec : log_record => rec.1 = INFO) lg /\
    forall m,
      model_graphs w' !! m
      = if decide (m ∈ models)
        then Some (fresh_graph self (lookup_attr w1 m (model_attribute self)))
        else model_graphs w1 !! m.
Proof.
  revert w1. induction models as [|m0 models IH]; intros w1 Hbound.
  - exists w1, []. rewrite app_nil_r.
    split; [done|]. split; [done|]. split; [done|]. split; [constructor|].
    intros m. by rewrite decide_False by apply not_elem_of_nil.
  - rewrite for_each_cons.
    erewrite bind_run by (apply regenerate_step, Hbound; by left).
    destruct (IH (rebuilt self m0 w1))
      as (w' & lg & -> & Hobj & Hlog & Hinfo & Hgraphs).
    { intros m Hin. apply Hbound. by right. }
    eexists w', (_ ++ lg). split; [reflexivity|].
    split; [done|]. split; [by rewrite Hlog; cbn; rewrite <- app_assoc|].
    split; [apply Forall_app; split; [apply fresh_log_info | done]|].
    intros m. rewrite Hgraphs. cbn [rebuilt model_graphs].
    destruct (decide (m ∈ models)) as [Hin|Hin].
    + by rewrite decide_True by (by right).
    + destruct (decide (m = m0)) as [->|Hne].
      * rewrite lookup_insert_eq. by rewrite decide_True by (by left).
      * rewrite lookup_insert_ne by done.
        rewrite decide_False; [done|]. by intros [?|?]%elem_of_cons.
Qed.

(** When the base method has returned and every model of the machine
    still has the [get_graph] that [add_model] bound to it, [add_states]
    and [add_transition] return, and afterwards the graph of every model of
    the machine is rebuilt from scratch from the machine as the base method
    left it, so that the styling left by earlier transitions is gone; the
    graphs of other models and all objects are as the base method left
    them. *)
Theorem add_states_rebuilds_all (base : R (world G) machine)
    (w w1 : world G) (self : machine) :
  base w = (w1, Ok self) ->
  (forall m, m ∈ models_of self ->
     lookup_attr w1 m "get_graph" = Some (PGetGraph m)) ->
  exists w' lg,
    add_states models_of call_other base w = (w', Ok ()) /\
    add_transition models_of call_other base w = (w', Ok ()) /\
    objects w' = objects w1 /\
    logged w' = logged w1 ++ lg /\
    Forall (fun rec : log_record => rec.1 = INFO) lg /\
    forall m,
      model_graphs w' !! m
      = if decide (m ∈ models_of self)
        then Some (fresh_graph self (lookup_attr w1 m (model_attribute self)))
        else model_graphs w1 !! m.
Proof.
  intros Hbase Hbound.
  destruct (regenerate_loop self (models_of self) w1 Hbound)
    as (w' & lg & Hrun & Hobj & Hlog & Hinfo & Hgraphs).
  exists w', lg. unfold add_states, add_transition, regenerate.
  rewrite (bind_run _ _ _ _ _ Hbase). by repeat split.
Qed.

End RegistryFacts.

Section BindingFacts.

Context {G A : Type} `{!GraphBackend G A} `{!Core G}.

(** *** _change_state: failures and isolation *)

(** [_change_state] fails in three ways. Without a graph registered for
    the model it raises KeyError at once: nothing is styled and the state
    change of the base class does not run. When the state change ran but
    left no graph for the model, it raises KeyError, and when it left the
    model without current-state attribute, AttributeError: in both cases
    the store is the one the state change left, with no active style
    set. *)
Theorem change_state_failures (self : transition_obj) ed (w : world G) :
  (model_graphs w !! ed_model ed = None ->
   _change_state self ed w = (w, Raise KeyError)) /\
  (forall g0 w2,
     model_graphs w !! ed_model ed = Some g0 ->
     core_change_state ed
       (with_graph (ed_model ed)
          (set_previous_transition (tr_source self) (tr_dest self)
             (reset_styling g0)) w) = (w2, Ok ()) ->
     (model_graphs w2 !! ed_model ed = None ->
      _change_state self ed w = (w2, Raise KeyError)) /\
     (model_graphs w2 !! ed_model ed <> None ->
      lookup_attr w2 (ed_model ed) (model_attribute (ed_machine ed)) = None ->
      _change_state self ed w = (w2, Raise AttributeError))).
Proof.
  split.
  - intros Hg. unfold _change_state.
    erewrite bind_raise; [reflexivity|]. unfold graph_of. by rewrite Hg.
  - intros g0 w2 Hg Hcore. rewrite (change_state_run _ _ _ _ Hg), Hcore.
    split.
    + by intros ->.
    + intros Hg2 Hv. destruct (model_graphs w2 !! ed_model ed); [|done].
      by rewrite Hv.
Qed.

(** Whatever its outcome, [_change_state] itself touches one entry of the
    registry, the graph of the model of the event: the state change of the
    base class runs on the store in which only that graph has been reset
    and given the previous transition, and the objects, the log and the
    graphs of the other models that it leaves are what [_change_state]
    leaves. *)
Theorem change_state_touches_one_model (self : transition_obj) ed
    (w w' : world G) r g0 :
  model_graphs w !! ed_model ed = Some g0 ->
  _change_state self ed w = (w', r) ->
  let styled :=
    with_graph (ed_model ed)
      (set_previous_transition (tr_source self) (tr_dest self)
         (reset_styling g0)) w in
  exists w2 r2,
    core_change_state ed styled = (w2, r2) /\
    objects w' = objects w2 /\ logged w' = logged w2 /\
    forall other, other <> ed_model ed ->
      model_graphs w' !! other = model_graphs w2 !! other.
Proof.
  intros Hg. rewrite (change_state_run _ _ _ _ Hg). intros Hrun styled.
  fold styled in Hrun.
  destruct (core_change_state ed styled) as [w2 r2] eqn:Hcore.
  exists w2, r2. split; [reflexivity|].
  destruct r2 as [[]|e].
  2: { by injection Hrun as <- <-. }
  destruct (model_graphs w2 !! ed_model ed) as [g2|].
  2: { by injection Hrun as <- <-. }
  destruct (lookup_attr w2 _ _) as [v|].
  2: { by injection Hrun as <- <-. }
  injection Hrun as <- <-. split; [done|]. split; [done|].
  intros other Hne. cbn. by apply lookup_insert_ne.
Qed.

(** *** add_model: binding fresh models *)

Lemma bind_model_exact (self : machine) mdl (w : world G) :
  lookup_attr w (resolve self mdl) "get_graph" = None ->
  bind_model self mdl w
  = (rebuilt self (resolve self mdl)
       (setattr (resolve self mdl) "get_graph"
          (PGetGraph (resolve self mdl)) w).1, Ok ()).
Proof.
  intros Hv. unfold bind_model. fold (resolve self mdl).
  erewrite bind_run by reflexivity. rewrite Hv.
  rewrite bool_decide_eq_false_2 by (by intros [? [=]]).
  erewrite bind_run by reflexivity.
  unfold mbind, R_bind. rewrite get_graph_exact. by rewrite render_run.
Qed.

Lemma bind_loop_fresh (self : machine) models (w1 : world G) :
  NoDup (resolve self <$> models) ->
  (forall m, m ∈ models ->
     lookup_attr w1 (resolve self m) "get_graph" = None) ->
  exists w',
    for_each models (bind_model self) w1 = (w', Ok ()) /\
    (forall obj attr,
       lookup_attr w' obj attr
       = if decide (obj ∈ resolve self <$> models /\ attr = "get_graph")
         then Some (PGetGraph obj)
         else lookup_attr w1 obj attr) /\
    (forall other, other ∉ resolve self <$> models ->
       model_graphs w' !! other = model_graphs w1 !! other) /\
    (forall id, id ∈ resolve self <$> models ->
       model_graphs w' !! id
       = Some (fresh_graph self (lookup_attr w' id (model_attribute self)))).
Proof.
  revert w1. induction models as [|m0 models IH]; intros w1 Hnd Hfresh.
  - exists w1. split; [done|]. split; [|split].
    + intros obj attr. rewrite decide_False; [done|].
      intros [Hin _]. by apply elem_of_nil in Hin.
    + done.
    + intros id Hin. by apply elem_of_nil in Hin.
  - rewrite fmap_cons in Hnd. apply NoDup_cons in Hnd as [Hnotin Hnd].
    rewrite for_each_cons.
    erewrite bind_run
      by (apply bind_model_exact, Hfresh; by left).
    set (id0 := resolve self m0) in Hnotin |- *.
    destruct (setattr id0 "get_graph" (PGetGraph id0) w1) as [w0 r0] eqn:Hset.
    assert (r0 = Ok ()) as -> by (by injection Hset as _ <-).
    cbn [fst].
    assert (forall obj attr,
              lookup_attr (rebuilt self id0 w0) obj attr
              = if decide (obj = id0 /\ attr = "get_graph")
                then Some (PGetGraph id0) else lookup_attr w1 obj attr)
      as Hattr.
    { intros obj attr.
      by rewrite <- (lookup_attr_setattr _ _ _ obj attr _ _ Hset). }
    assert (model_graphs w0 = model_graphs w1) as Hg0
      by (by injection Hset as <-).
    destruct (IH (rebuilt self id0 w0) Hnd) as (w' & -> & Ha & Hb & Hc).
    { intros m Hin. rewrite Hattr. rewrite decide_False; [|intros [Heq _]].
      - apply Hfresh. by right.
      - apply Hnotin. rewrite <- Heq. by apply list_elem_of_fmap_2. }
    exists w'. split; [done|]. split; [|split].
    + intros obj attr. rewrite Ha, Hattr, fmap_cons. fold id0.
      destruct (decide (obj ∈ resolve self <$> models /\ attr = "get_graph"))
        as [[Hin ->]|Hn].
      * rewrite decide_True; [done|]. split; [by right | done].
      * destruct (decide (obj = id0 /\ attr = "get_graph")) as [[-> ->]|Hn0].
        -- rewrite decide_True; [done|]. split; [by left | done].
        -- rewrite decide_False; [done|].
           intros [[->|Hin]%elem_of_cons ->]; tauto.
    + intros other Hother. rewrite fmap_cons in Hother. fold id0 in Hother.
      apply not_elem_of_cons in Hother as [Hne Hother].
      rewrite (Hb _ Hother). cbn [rebuilt model_graphs].
      rewrite lookup_insert_ne by done. by rewrite Hg0.
    + intros id Hin. rewrite fmap_cons in Hin. fold id0 in Hin.
      apply elem_of_cons in Hin as [->|Hin]; [|by apply Hc].
      rewrite (Hb _ Hnotin). cbn [rebuilt model_graphs].
      rewrite lookup_insert_eq. do 2 f_equal.
      rewrite Ha. rewrite decide_False by tauto. done.
Qed.

(** When the registration of the base class has returned, the models of
    the list are distinct objects and none of them has a [get_graph] yet,
    [add_model] returns; afterwards every model of the list has the bound
    [get_graph] and a graph built from scratch for its current state, and
    every other attribute of every object and the graphs of the other
    models are as the base registration left them. *)
Theorem add_model_binds (self : machine) models initial (w w1 : world G) :
  core_add_model self models initial w = (w1, Ok ()) ->
  NoDup (resolve self <$> models) ->
  (forall m, m ∈ models ->
     lookup_attr w1 (resolve self m) "get_graph" = None) ->
  exists w',
    add_model self models initial w = (w', Ok ()) /\
    (forall m, m ∈ models ->
       lookup_attr w' (resolve self m) "get_graph"
       = Some (PGetGraph (resolve self m)) /\
       model_graphs w' !! resolve self m
       = Some (fresh_graph self
                 (lookup_attr w' (resolve self m) (model_attribute self)))) /\
    (forall obj attr,
       ~ (obj ∈ resolve self <$> models /\ attr = "get_graph") ->
       lookup_attr w' obj attr = lookup_attr w1 obj attr) /\
    (forall other, other ∉ resolve self <$> models ->
       model_graphs w' !! other = model_graphs w1 !! other).
Proof.
  intros Hcore Hnd Hfresh.
  destruct (bind_loop_fresh self models w1 Hnd Hfresh)
    as (w' & Hrun & Ha & Hb & Hc).
  exists w'. unfold add_model. erewrite bind_run by exact Hcore.
  split; [exact Hrun|]. split; [|split].
  - intros m Hin.
    assert (resolve self m ∈ resolve self <$> models) as Hid
      by (by apply list_elem_of_fmap_2).
    split; [|by apply Hc]. rewrite Ha. by rewrite decide_True.
  - intros obj attr Hn. rewrite Ha. by rewrite decide_False.
  - exact Hb.
Qed.

Lemma bind_loop_duplicate (self : machine) models (w1 : world G) :
  ~ NoDup (resolve self <$> models) ->
  exists w', for_each models (bind_model self) w1 = (w', Raise AttributeError).
Proof.
  revert w1. induction models as [|m0 models IH]; intros w1 Hdup.
  - destruct Hdup. constructor.
  - rewrite for_each_cons.
    destruct (lookup_attr w1 (resolve self m0) "get_graph") as [v|] eqn:Hv.
    + exists w1. by erewrite bind_raise by (by eapply bind_model_conflict).
    + erewrite bind_run by (by apply bind_model_exact).
      set (w2 := rebuilt self _ _).
      destruct (decide (resolve self m0 ∈ resolve self <$> models))
        as [Hin|Hnotin].
      * apply list_elem_of_fmap in Hin as (m & Heq & Hin).
        destruct (bind_loop_conflict self models w2 m
                    (PGetGraph (resolve self m0))) as (w' & Hrun & _).
        -- by apply list_elem_of_In.
        -- rewrite <- Heq. unfold w2, rebuilt, lookup_attr.
           cbn [objects setattr fst]. rewrite lookup_insert_eq. cbn.
           by rewrite lookup_insert_eq.
        -- by exists w'.
      * apply IH. intros Hnd. apply Hdup. rewrite fmap_cons.
        by apply NoDup_cons.
Qed.

(** A list that names the same object twice, be it as the self literal
    and as the machine, is refused: when the registration of the base
    class has returned, [add_model] raises AttributeError whatever the
    attributes of the models were. *)
Theorem add_model_duplicate (self : machine) models initial (w w1 : world G) :
  core_add_model self models initial w = (w1, Ok ()) ->
  ~ NoDup (resolve self <$> models) ->
  exists w', add_model self models initial w = (w', Raise AttributeError).
Proof.
  intros Hcore Hdup.
  destruct (bind_loop_duplicate self models w1 Hdup) as (w' & Hrun).
  exists w'. unfold add_model. by erewrite bind_run by exact Hcore.
Qed.

End BindingFacts.

(** *** The properties above on the recording backend *)

Lemma forced_rebuild_forgets_witness :
  objects two_models_rebuilt = objects two_models /\
  model_graphs
    (run_get_graph example_machine 1 None true false two_models_rebuilt).1
    !! 1
  = model_graphs
      (run_get_graph example_machine 1 None true false two_models).1 !! 1.
Proof.
  split; [reflexivity|].
  destruct (@forced_rebuild_forgets (list call) recorded recorder
              (engine (list call) PNone) example_machine 1 None false
              two_models two_models_rebuilt)
    as (_ & Hsame & _); [reflexivity|].
  exact Hsame.
Defined.

Lemma initial_marks_witness :
  run_get_graph example_machine 1 None true false walker
  = (World {[ 1 := [CallGenerate; CallSetNodeStyle (PStr "A") "active"] ]}
       (objects walker) [],
     Ok (None, None, [CallGenerate; CallSetNodeStyle (PStr "A") "active"])).
Proof.
  etransitivity.
  - apply (@initial_marks (list call) recorded recorder
             (engine (list call) PNone) example_machine 1 None walker
             (PStr "A")).
    + vm_compute. reflexivity.
    + vm_compute. repeat constructor.
  - vm_compute. reflexivity.
Defined.

Lemma initial_marks_stop_at_named_witness :
  run_get_graph example_machine 1 None true false
    (one_model 1 [("state", PSeq AList [PStr "A"; PNamed "x"; PStr "B"])] [])
  = (World {[ 1 := [CallGenerate; CallSetNodeStyle (PStr "A") "active"] ]}
       {[ 1 := {[ "state" := PSeq AList [PStr "A"; PNamed "x"; PStr "B"] ]} ]}
       [(INFO, "Could not set active state of diagram")],
     Ok (None, None, [CallGenerate; CallSetNodeStyle (PStr "A") "active"])).
Proof.
  etransitivity.
  - apply (@initial_marks_stop_at_named (list call) recorded recorder
             (engine (list call) PNone) example_machine 1 None
             (one_model 1
                [("state", PSeq AList [PStr "A"; PNamed "x"; PStr "B"])] [])
             (PSeq AList [PStr "A"; PNamed "x"; PStr "B"])
             [PStr "A"] (PNamed "x") [PStr "B"]).
    + reflexivity.
    + vm_compute. reflexivity.
    + vm_compute. reflexivity.
    + repeat constructor.
    + reflexivity.
  - vm_compute. reflexivity.
Defined.

Lemma cached_query_is_pure_witness :
  run_get_graph example_machine 1 (Some "t") false false two_models
  = (two_models,
     Ok (Some "t", None,
         [CallGenerate; CallResetStyling;
          CallSetPreviousTransition (PStr "A") (PStr "B");
          CallSetNodeStyle (PStr "B") "active"])).
Proof.
  destruct (@cached_query_is_pure (list call) recorded recorder
              (engine (list call) PNone) example_machine 1 (Some "t") false
              two_models
              [CallGenerate; CallResetStyling;
               CallSetPreviousTransition (PStr "A") (PStr "B");
               CallSetNodeStyle (PStr "B") "active"])
    as (r & Hrun & Hr & _); [vm_compute; reflexivity|].
  etransitivity; [exact Hrun|]. f_equal. exact (Hr eq_refl).
Defined.

Lemma get_graph_touches_one_model_witness :
  run_get_graph example_machine 1 None true false two_models
  = (two_models_rebuilt,
     Ok (None, None, [CallGenerate; CallSetNodeStyle (PStr "B") "active"])) /\
  objects two_models_rebuilt = objects two_models /\
  model_graphs two_models_rebuilt !! 2 = model_graphs two_models !! 2.
Proof.
  assert (run_get_graph example_machine 1 None true false two_models
          = (two_models_rebuilt,
             Ok (None, None,
                 [CallGenerate; CallSetNodeStyle (PStr "B") "active"])))
    as Hrun by (vm_compute; reflexivity).
  split; [exact Hrun|].
  destruct (@get_graph_touches_one_model (list call) recorded recorder
              (engine (list call) PNone) example_machine 1 None true false
              two_models two_models_rebuilt _ Hrun) as [Hobj Hother].
  split; [exact Hobj|]. apply Hother. lia.
Defined.

Example setstate_two_models :
  @__setstate__ (list call) recorded recorder (engine (list call) PNone)
    example_machine [1; 2] two_models
  = (World {[ 1 := [CallGenerate; CallSetNodeStyle (PStr "B") "active"];
              2 := [CallGenerate; CallSetNodeStyle (PStr "A") "active"] ]}
       (objects two_models) [], Ok ()).
Proof. vm_compute. reflexivity. Qed.

Lemma add_states_rebuilds_all_witness :
  exists w',
    @add_states (list call) recorded recorder (engine (list call) PNone)
      (fun _ => [1; 2]) (fun _ => raise AttributeError)
      (mret example_machine) two_models = (w', Ok ()) /\
    objects w' = objects two_models /\
    model_graphs w' !! 1
    = Some [CallGenerate; CallSetNodeStyle (PStr "B") "active"].
Proof.
  destruct (@add_states_rebuilds_all (list call) recorded recorder
              (engine (list call) PNone)
              (fun _ => [1; 2]) (fun _ => raise AttributeError)
              (mret example_machine) two_models two_models example_machine)
    as (w' & lg & Hrun & _ & Hobj & _ & _ & Hgraphs).
  - reflexivity.
  - intros m Hin.
    repeat (apply elem_of_cons in Hin as [->|Hin]; [vm_compute; reflexivity|]).
    by apply elem_of_nil in Hin.
  - exists w'. split; [exact Hrun|]. split; [exact Hobj|].
    rewrite Hgraphs. vm_compute. reflexivity.
Defined.

Lemma change_state_failures_witness :
  run_change_state (PStr "B") walk walk_event stateless
  = (stateless, Raise KeyError).
Proof.
  apply (proj1 (@change_state_failures (list call) recorded recorder
                  (engine (list call) (PStr "B")) walk walk_event stateless)).
  vm_compute. reflexivity.
Defined.

Lemma change_state_touches_one_model_witness :
  exists w2 r2,
    @core_change_state (list call) (engine (list call) (PStr "B")) walk_event
      (with_graph 1
         [CallGenerate; CallResetStyling;
          CallSetPreviousTransition (PStr "A") (PStr "B");
          CallSetNodeStyle (PStr "B") "active"; CallResetStyling;
          CallSetPreviousTransition (PStr "A") (PStr "B")] two_models)
    = (w2, r2) /\
    objects (run_change_state (PStr "B") walk walk_event two_models).1
    = objects w2 /\
    model_graphs (run_change_state (PStr "B") walk walk_event two_models).1
      !! 2 = model_graphs w2 !! 2.
Proof.
  destruct (@change_state_touches_one_model (list call) recorded recorder
              (engine (list call) (PStr "B")) walk walk_event two_models
              (run_change_state (PStr "B") walk walk_event two_models).1
              (run_change_state (PStr "B") walk walk_event two_models).2
              [CallGenerate; CallResetStyling;
               CallSetPreviousTransition (PStr "A") (PStr "B");
               CallSetNodeStyle (PStr "B") "active"])
    as (w2 & r2 & Hcore & Hobj & _ & Hother).
  - vm_compute. reflexivity.
  - vm_compute. reflexivity.
  - exists w2, r2. split; [exact Hcore|]. split; [exact Hobj|].
    apply Hother. cbn. lia.
Defined.

Lemma add_model_binds_witness :
  exists w',
    run_add_model example_machine [Model 1; Model 2] (Some (PStr "A"))
      (World ∅ ∅ []) = (w', Ok ()) /\
    Runtime.lookup_attr w' 1 "get_graph" = Some (PGetGraph 1) /\
    Runtime.lookup_attr w' 2 "state" = Some (PStr "A").
Proof.
  destruct (@add_model_binds (list call) recorded recorder
              (engine (list call) PNone) example_machine
              [Model 1; Model 2] (Some (PStr "A")) (World ∅ ∅ [])
              (World ∅ {[ 1 := {[ "state" := PStr "A" ]};
                          2 := {[ "state" := PStr "A" ]} ]} []))
    as (w' & Hrun & Hbound & Hkept & _).
  - vm_compute. reflexivity.
  - apply (bool_decide_unpack _). vm_compute. exact I.
  - intros m Hin.
    repeat (apply elem_of_cons in Hin as [->|Hin]; [vm_compute; reflexivity|]).
    by apply elem_of_nil in Hin.
  - exists w'. split; [exact Hrun|]. split.
    + apply (Hbound (Model 1)). by left.
    + rewrite Hkept; [vm_compute; reflexivity|]. intros [_ [=]].
Defined.

Lemma add_model_duplicate_witness :
  exists w',
    run_add_model example_machine [SelfLiteral; Model 0] None (World ∅ ∅ [])
    = (w', Raise AttributeError).
Proof.
  apply (@add_model_duplicate (list call) recorded recorder
           (engine (list call) PNone) example_machine [SelfLiteral; Model 0]
           None (World ∅ ∅ [])
           (World ∅ {[ 0 := {[ "state" := PNone ]} ]} [])).
  - vm_compute. reflexivity.
  - intros Hnd. apply NoDup_cons in Hnd as [Hnotin _].
    apply Hnotin. by left.
Defined.
